(** * A shallow embedding of [font/font_patch.py] (DBIPatcher)

    The script locates a zstd-compressed 16x16 glyph table inside an NRO
    binary, repaints the glyphs of a language's code point ranges, then
    recompresses the table and splices it back in place.

    Modelling conventions:
    - byte strings ([bytes], [bytearray]) are [list Z], each element in [0,256);
    - Python integers used as offsets and lengths are [nat];
    - zstd (de)compression and PIL rasterization are external capabilities,
      taken as section variables, so every theorem holds for every
      implementation of them;
    - [sys.exit(n)] and uncaught exceptions end the run with an exit code
      and leave the file as it was read. *)

From stdpp Require Import base list strings.
From Stdlib Require Import ZArith Lia Ascii.

#[local] Set Warnings "-abstract-large-number".

Open Scope Z_scope.
Open Scope nat_scope.

Abbreviation bytes := (list Z).

(** ** Constants (lines 6-11) *)

Definition GLYPH_W : nat := 16.
Definition GLYPH_H : nat := 16.
Definition BYTES_PER_ROW : nat := 2.
Definition BYTES_PER_GLYPH : nat := GLYPH_H * BYTES_PER_ROW.
Definition EXPECTED_SIZE : nat := 0x10000 * BYTES_PER_GLYPH.
Definition MAGIC : bytes := [0x28; 0xB5; 0x2F; 0xFD]%Z.

(** The table size is only ever handled symbolically. *)
Arguments EXPECTED_SIZE : simpl never.

(** ** [bytes.find] *)

Fixpoint prefixb (sub s : bytes) : bool :=
  match sub, s with
  | [], _ => true
  | x :: sub', y :: s' => Z.eqb x y && prefixb sub' s'
  | _ :: _, [] => false
  end.

(** Search from absolute index [i] in the remaining suffix [s]. *)
Fixpoint find_aux (sub s : bytes) (i : nat) : option nat :=
  if prefixb sub s then Some i
  else match s with
       | [] => None
       | _ :: s' => find_aux sub s' (S i)
       end.

(** [s.find(sub, start)]: [None] stands for Python's [-1]. *)
Definition bytes_find (s sub : bytes) (start : nat) : option nat :=
  if start <=? length s then find_aux sub (drop start s) start else None.

(** [raw[i:].startswith(MAGIC)]: there is an occurrence of [MAGIC] at [i]. *)
Definition magic_at (raw : bytes) (i : nat) : bool := prefixb MAGIC (drop i raw).

(** ** [find_font_bundle] (lines 70-92) *)

(** The [while True] loop of lines 73-78.  Each round moves [p] past the
    found index, so [length raw + 1] rounds are enough (lemma
    [scan_spec] below). *)
Fixpoint scan (fuel : nat) (raw : bytes) (p : nat) : list nat :=
  match fuel with
  | O => []
  | S fuel' =>
      match bytes_find raw MAGIC p with
      | None => []
      | Some i => i :: scan fuel' raw (i + 1)
      end
  end.

Definition magic_positions (raw : bytes) : list nat :=
  scan (S (length raw)) raw 0.

Section Locator.

(** [zstd.ZstdDecompressor().decompress(data, max_output_size=cap)]:
    [None] when it raises. *)
Variable decompress : bytes -> nat -> option bytes.

(** Line 86. *)
Definition budget_of (raw : bytes) (positions : list nat) (pos : nat) : nat :=
  match List.filter (fun x => pos <? x) positions with
  | x :: _ => x - pos
  | [] => length raw - pos
  end.

(** The [for pos in positions] loop of lines 81-89.  Besides the result it
    records every decompression call as [(offset, max_output_size)]. *)
Fixpoint try_positions (raw : bytes) (positions cands : list nat)
  : list (nat * nat) * option (nat * bytes * nat) :=
  match cands with
  | [] => ([], None)
  | pos :: rest =>
      let call := (pos, EXPECTED_SIZE) in
      match decompress (drop pos raw) EXPECTED_SIZE with
      | Some dec =>
          if length dec =? EXPECTED_SIZE
          then ([call], Some (pos, dec, budget_of raw positions pos))
          else let '(calls, r) := try_positions raw positions rest in (call :: calls, r)
      | None =>
          let '(calls, r) := try_positions raw positions rest in (call :: calls, r)
      end
  end.

(** [None] is the [sys.exit(1)] of line 92 (BundleNotFound). *)
Definition find_font_bundle (raw : bytes) : option (nat * bytes * nat) :=
  let positions := magic_positions raw in
  snd (try_positions raw positions positions).

Definition decompress_calls (raw : bytes) : list (nat * nat) :=
  let positions := magic_positions raw in
  fst (try_positions raw positions positions).

(** The candidate at [o] decompresses to exactly the table size. *)
Definition valid_at (raw : bytes) (o : nat) : bool :=
  match decompress (drop o raw) EXPECTED_SIZE with
  | Some dec => length dec =? EXPECTED_SIZE
  | None => false
  end.

End Locator.

(** ** Glyph rows and table writes (lines 143-155) *)

(** A glyph bitmap as [rasterize_char] returns it: a list of rows, each a
    list of pixels, [True] meaning on. *)
Abbreviation bitmap := (list (list bool)).

(** [bytearray[i] = v]: an index past the end raises [IndexError]. *)
Definition bytearray_set (b : bytes) (i : nat) (v : Z) : option bytes :=
  if i <? length b then Some (<[i := v]> b) else None.

(** Lines 150-153: [for bit, on in enumerate(row): if on: v |= 1 << (15 - bit)].
    A negative shift count ([bit > 15]) raises [ValueError]. *)
Fixpoint row_value_aux (row : list bool) (bit : nat) (v : Z) : option Z :=
  match row with
  | [] => Some v
  | on :: row' =>
      if on then
        if 15 <? bit then None
        else row_value_aux row' (S bit) (Z.lor v (Z.shiftl 1 (Z.of_nat (15 - bit))))
      else row_value_aux row' (S bit) v
  end.

Definition row_value (row : list bool) : option Z := row_value_aux row 0 0%Z.

(** Lines 148-155 for the rows [rs] of one glyph at byte offset [off]. *)
Fixpoint write_rows (bundle : bytes) (off : nat) (bm : bitmap) (rs : list nat)
  : option bytes :=
  match rs with
  | [] => Some bundle
  | r :: rs' =>
      row ← bm !! r;
      v ← row_value row;
      b1 ← bytearray_set bundle (off + r * 2) (Z.land v 0xFF);
      b2 ← bytearray_set b1 (off + r * 2 + 1) (Z.land (Z.shiftr v 8) 0xFF);
      write_rows b2 off bm rs'
  end.

(** Lines 146-155: the glyph of code point [cp]. *)
Definition patch_glyph (bundle : bytes) (cp : nat) (bm : bitmap) : option bytes :=
  write_rows bundle (cp * BYTES_PER_GLYPH) bm (seq 0 GLYPH_H).

(** The 32 bytes lines 148-155 produce for a glyph, in table order. *)
Definition pack (bm : bitmap) : option bytes :=
  rows ← mapM (fun r =>
                 row ← bm !! r;
                 v ← row_value row;
                 Some [Z.land v 0xFF; Z.land (Z.shiftr v 8) 0xFF]) (seq 0 GLYPH_H);
  Some (concat rows).

(** Modelled from the spec: [unpack], which the source does not contain
    (section 4.2 asks for it as the inverse of [pack]).  Row [r] is the
    little-endian 16-bit word at bytes [2r] and [2r+1]; column [c] is its
    bit [15 - c]. *)
Definition unpack (p : bytes) : bitmap :=
  map (fun r =>
         let lo := default 0%Z (p !! (r * 2)) in
         let hi := default 0%Z (p !! (r * 2 + 1)) in
         let v := Z.lor lo (Z.shiftl hi 8) in
         map (fun c => Z.testbit v (Z.of_nat (15 - c))) (seq 0 GLYPH_W))
      (seq 0 GLYPH_H).

Section Patch.

(** [rasterize_char(ft, chr(cp))] with the font picked by [pick_font]. *)
Variable rasterize : nat -> bitmap.

(** [for cp in cps]; [chr(cp)] raises [ValueError] past [0x10FFFF]. *)
Fixpoint patch_cps (bundle : bytes) (cps : list nat) : option bytes :=
  match cps with
  | [] => Some bundle
  | cp :: cps' =>
      if 0x10FFFF <? cp then None
      else b ← patch_glyph bundle cp (rasterize cp); patch_cps b cps'
  end.

(** Lines 143-155: [for (start, end) in ranges: for cp in range(start, end)]. *)
Fixpoint patch_ranges (bundle : bytes) (ranges : list (nat * nat)) : option bytes :=
  match ranges with
  | [] => Some bundle
  | (start, end_) :: ranges' =>
      b ← patch_cps bundle (seq start (end_ - start));
      patch_ranges b ranges'
  end.

End Patch.

(** ** Write-back (lines 157-164) *)

(** [raw[offset:offset+len(comp)] = comp] on a [bytearray]. *)
Definition splice (raw : bytes) (offset : nat) (comp : bytes) : bytes :=
  take offset raw ++ comp ++ drop (offset + length comp) raw.

Section WriteBack.

(** [zstd.ZstdCompressor(level=22).compress]: a fixed function. *)
Variable compress : bytes -> bytes.

(** Lines 157-164.  The result is the exit code and the file contents
    after the run. *)
Definition write_back (raw : bytes) (offset : nat) (bundle : bytes) (limit : nat)
  : nat * bytes :=
  let comp := compress bundle in
  if limit <? length comp then (1, raw)
  else (0, splice raw offset comp).

End WriteBack.

(** ** Language ranges (lines 15-41) *)

Definition HANGUL_SYLLABLES : list (nat * nat) := [(0xAC00, 0xD7A4)].
Definition JAPANESE_KANA : list (nat * nat) :=
  [(0x3040, 0x309F); (0x30A0, 0x30FF); (0x31F0, 0x31FF)].
Definition CJK_UNIFIED_IDEOGRAPHS : list (nat * nat) := [(19968 (* 0x4E00 *), 0x9FFF)].
Definition LATIN_BASIC : list (nat * nat) := [(0x0041, 0x005B); (0x0061, 0x007B)].
Definition LATIN_ACCENTED : list (nat * nat) := LATIN_BASIC ++ [(0x00C0, 0x00FF)].
Definition LATIN_EXT_A : list (nat * nat) := LATIN_ACCENTED ++ [(0x0100, 0x017F)].
Definition CYRILLIC : list (nat * nat) := [(0x0400, 0x04FF)].
Definition DIGITS : list (nat * nat) := [(0x0030, 0x003A)].

Definition FONT_RANGES : list (string * list (nat * nat)) :=
  [("ko"%string, HANGUL_SYLLABLES); ("ja"%string, JAPANESE_KANA ++ CJK_UNIFIED_IDEOGRAPHS);
   ("en"%string, LATIN_BASIC); ("fr"%string, LATIN_ACCENTED); ("frCA"%string, LATIN_ACCENTED);
   ("de"%string, LATIN_ACCENTED); ("it"%string, LATIN_ACCENTED); ("nl"%string, LATIN_ACCENTED);
   ("es"%string, LATIN_ACCENTED); ("es419"%string, LATIN_ACCENTED); ("pt"%string, LATIN_ACCENTED);
   ("ptBR"%string, LATIN_ACCENTED); ("pl"%string, LATIN_EXT_A); ("ru"%string, CYRILLIC);
   ("ua"%string, CYRILLIC)].

(** Dictionary lookup [FONT_RANGES[lang]]; [None] when [lang not in FONT_RANGES]. *)
Fixpoint assoc_get (k : string) (d : list (string * list (nat * nat)))
  : option (list (nat * nat)) :=
  match d with
  | [] => None
  | (k', v) :: d' => if String.eqb k k' then Some v else assoc_get k d'
  end.

(** ** [main] (lines 116-164) *)

Section Main.

Variable decompress : bytes -> nat -> option bytes.
Variable compress : bytes -> bytes.
Variable rasterize : nat -> bitmap.

(** [argv] is [sys.argv]; [raw] is the content of the file at [argv[2]];
    [font_num] is what [load_config] read; [font_found] says whether
    [pick_font] found a TTF/OTF file that [ImageFont.truetype] loads.  The
    result is the exit code and the file contents after the run. *)
Definition main (argv : list string) (font_num font_found : bool) (raw : bytes)
  : nat * bytes :=
  match argv with
  | _ :: lang :: _ :: _ =>
      match assoc_get lang FONT_RANGES with
      | None => (0, raw)
      | Some lang_ranges =>
          match find_font_bundle decompress raw with
          | None => (1, raw)
          | Some (offset, bundle, limit) =>
              let ranges := if font_num then lang_ranges ++ DIGITS else lang_ranges in
              if font_found then
                match patch_ranges rasterize bundle ranges with
                | None => (1, raw)
                | Some bundle' => write_back compress raw offset bundle' limit
                end
              else (1, raw)
          end
      end
  | _ => (1, raw)
  end.

End Main.

(** ** [load_config] (lines 43-61)

    config.txt is decoded from UTF-8 to a Python [str]: a line is the list
    of its code points, line end included, and the file is the list of its
    lines. *)

Abbreviation chars := (list nat).

(** A [str] literal as its code points. *)
Definition text (s : string) : chars := map Ascii.nat_of_ascii (String.list_ascii_of_string s).

(** [str.isspace] on one code point: Python's whitespace characters. *)
Definition is_space (c : nat) : bool :=
  ((9 <=? c) && (c <=? 13)) || ((28 <=? c) && (c <=? 32)) || (c =? 0x85) || (c =? 0xA0) ||
  (c =? 0x1680) || ((0x2000 <=? c) && (c <=? 0x200A)) || (c =? 0x2028) || (c =? 0x2029) ||
  (c =? 0x202F) || (c =? 0x205F) || (c =? 0x3000).

Fixpoint lstrip (s : chars) : chars :=
  match s with
  | [] => []
  | c :: s' => if is_space c then lstrip s' else s
  end.

Definition rstrip (s : chars) : chars := reverse (lstrip (reverse s)).

(** [str.strip()]. *)
Definition strip (s : chars) : chars := rstrip (lstrip s).

(** The code point of ["="]. *)
Definition EQ_SIGN : nat := 61.

(** [line.split("=", 1)]; [None] when ["=" not in line]. *)
Fixpoint split_eq (s : chars) : option (chars * chars) :=
  match s with
  | [] => None
  | c :: s' =>
      if c =? EQ_SIGN then Some ([], s')
      else match split_eq s' with
           | Some (k, v) => Some (c :: k, v)
           | None => None
           end
  end.

Definition FONT_NUM_KEY : chars := text "font_num".
Definition TRUE_TEXT : chars := text "true".

Section Config.

(** [str.lower()]: Unicode case mapping, which may change the length of
    a string, taken as a parameter. *)
Variable lower : chars -> chars.

(** The [for line in f] loop of lines 48-57, from the current value of
    [cfg["font_num"]]. *)
Fixpoint config_loop (font_num : bool) (lines : list chars) : bool :=
  match lines with
  | [] => font_num
  | line :: lines' =>
      let line := strip line in
      match split_eq line with
      | None => config_loop font_num lines'
      | Some (key, val) =>
          let key := strip key in
          let val := lower (strip val) in
          config_loop (if bool_decide (key = FONT_NUM_KEY)
                       then bool_decide (val = TRUE_TEXT) else font_num) lines'
      end
  end.

(** [load_config()["font_num"]].  [None] is a config.txt that [open]
    cannot read; otherwise [lines] are the lines read before the loop ends,
    normally or by an exception, which the bare [except] swallows while
    [cfg] keeps what was already set. *)
Definition load_config (f : option (list chars)) : bool :=
  match f with
  | None => false
  | Some lines => config_loop false lines
  end.

(** The setting one line of config.txt makes, if any. *)
Definition font_num_setting (line : chars) : option bool :=
  match split_eq (strip line) with
  | Some (key, val) =>
      if bool_decide (strip key = FONT_NUM_KEY)
      then Some (bool_decide (lower (strip val) = TRUE_TEXT)) else None
  | None => None
  end.

End Config.

(** ** Glyph placement in [rasterize_char] (lines 97-106)

    [w] is [int(round(ft.getlength(ch)))], [None] when [getlength]
    raises; [ascent] and [descent] are [ft.getmetrics()].  The result is
    the point passed to [draw.text]; [//] is floor division. *)
Definition text_origin (w : option Z) (ascent descent : Z) : Z * Z :=
  let w := match w with Some w => w | None => 8%Z end in
  let x := Z.max 0 ((Z.of_nat GLYPH_W - w) / 2) in
  let y := ((Z.of_nat GLYPH_H - (ascent + descent)) / 2 + ascent)%Z in
  (x, (y - ascent)%Z).

(** ** The code points of a range list *)

(** The code points [for (start, end) in ranges: for cp in range(start, end)]
    visits, in order. *)
Definition range_cps (ranges : list (nat * nat)) : list nat :=
  concat (map (fun '(s, e) => seq s (e - s)) ranges).

(** No two ranges of the list share a code point. *)
Fixpoint ranges_disjoint (ranges : list (nat * nat)) : bool :=
  match ranges with
  | [] => true
  | (s, e) :: ranges' =>
      forallb (fun '(s', e') => (e <=? s') || (e' <=? s)) ranges' && ranges_disjoint ranges'
  end.

(** ** Concrete inputs

    A stand-in decompressor: a stream [MAGIC ++ [1] ++ _] inflates to a
    zero table of the expected size, [MAGIC ++ [2] ++ _] to an empty output,
    anything else raises. *)
Definition sample_decompress (s : bytes) (cap : nat) : option bytes :=
  if prefixb (MAGIC ++ [1%Z]) s then Some (repeat 0%Z EXPECTED_SIZE)
  else if prefixb (MAGIC ++ [2%Z]) s then Some []
  else None.

(** Two decoys (one that raises, one of the wrong size), then the table. *)
Definition sample_nro : bytes := MAGIC ++ [0%Z] ++ MAGIC ++ [2%Z] ++ MAGIC ++ [1%Z].

(** The table first, then another marker. *)
Definition sample_nro2 : bytes := MAGIC ++ [1%Z] ++ MAGIC ++ [0%Z].

Definition sample_argv (lang : string) : list string :=
  ["font_patch.py"; lang; "DBI.nro"]%string.

Definition blank_glyph (cp : nat) : bitmap := repeat (repeat false 16) 16.

Definition checker_glyph : bitmap :=
  map (fun r => map (fun c => Nat.even (r + c)) (seq 0 16)) (seq 0 16).

(** [str.lower] on text whose letters are all ASCII. *)
Definition ascii_lower : chars -> chars :=
  map (fun c => if (65 <=? c) && (c <=? 90) then c + 32 else c).

(** ** Sanity checks on small inputs *)

Example find_overlapping : magic_positions ([0x28; 0xB5; 0x2F; 0xFD; 0x28; 0xB5; 0x2F; 0xFD]%Z ++ [7%Z]) = [0; 4].
Proof. reflexivity. Qed.

Example row_value_ex : row_value [true; false; false; false; false; false; false; false;
                                  false; false; false; false; false; false; false; true] = Some 0x8001%Z.
Proof. reflexivity. Qed.

(** * Proofs *)

(** ** The scan of lines 71-78 *)

Lemma magic_at_lt (raw : bytes) i : magic_at raw i = true -> i < length raw.
Proof.
  unfold magic_at. intros H.
  destruct (decide (i < length raw)) as [|Hge]; [done|].
  rewrite drop_ge in H; [discriminate | lia].
Qed.

Lemma bytes_find_end (raw : bytes) p : length raw <= p -> bytes_find raw MAGIC p = None.
Proof.
  intros Hp. unfold bytes_find.
  destruct (p <=? length raw) eqn:E; [|done].
  rewrite drop_ge by lia. reflexivity.
Qed.

Lemma bytes_find_step (raw : bytes) p :
  p < length raw ->
  bytes_find raw MAGIC p = if magic_at raw p then Some p else bytes_find raw MAGIC (S p).
Proof.
  intros Hp. unfold bytes_find, magic_at.
  destruct (lookup_lt_is_Some_2 raw p Hp) as [x Hx].
  rewrite (drop_S raw x p Hx).
  replace (p <=? length raw) with true by (symmetry; apply Nat.leb_le; lia).
  replace (S p <=? length raw) with true by (symmetry; apply Nat.leb_le; lia).
  reflexivity.
Qed.

Lemma scan_spec (raw : bytes) n : forall p fuel,
  length raw - p = n -> n < fuel ->
  scan fuel raw p = List.filter (magic_at raw) (seq p n).
Proof.
  induction n as [|n IH]; intros p fuel Hn Hf;
    (destruct fuel as [|fuel]; [lia|]).
  - cbn [scan]. rewrite bytes_find_end by lia. reflexivity.
  - cbn [scan seq List.filter]. rewrite bytes_find_step by lia.
    destruct (magic_at raw p) eqn:Hm.
    + f_equal. replace (p + 1) with (S p) by lia. apply IH; lia.
    + change (scan (S fuel) raw (S p) = List.filter (magic_at raw) (seq (S p) n)).
      apply IH; lia.
Qed.

(** The scan yields every occurrence of [MAGIC], overlapping ones included,
    in ascending order. *)
Lemma magic_positions_spec (raw : bytes) :
  magic_positions raw = List.filter (magic_at raw) (seq 0 (length raw)).
Proof. unfold magic_positions. apply scan_spec; lia. Qed.

Lemma in_magic_positions (raw : bytes) o :
  In o (magic_positions raw) <-> magic_at raw o = true.
Proof.
  rewrite magic_positions_spec, filter_In, in_seq.
  split; [tauto|]. intros H. pose proof (magic_at_lt raw o H). split; [lia|done].
Qed.

(** The head of a filtered [seq] is its least element passing the test. *)
Lemma filter_seq_head (h : nat -> bool) a n x rest :
  List.filter h (seq a n) = x :: rest ->
  a <= x < a + n /\ h x = true /\ forall y, a <= y < x -> h y = false.
Proof.
  revert a. induction n as [|n IH]; intros a H; [discriminate|].
  cbn [seq List.filter] in H. destruct (h a) eqn:Ha.
  - injection H as <- _. split; [lia|]. split; [done|]. intros y Hy. lia.
  - destruct (IH (S a) H) as (Hx & Hhx & Hmin). split; [lia|]. split; [done|].
    intros y Hy. destruct (decide (y = a)) as [->|]; [done|]. apply Hmin. lia.
Qed.

Lemma filter_filter_andb {A} (f g : A -> bool) l :
  List.filter f (List.filter g l) = List.filter (fun x => f x && g x) l.
Proof.
  induction l as [|x l IH]; [done|]. cbn.
  destruct (g x); cbn; destruct (f x); cbn; rewrite IH; done.
Qed.

(** A filtered [seq] is strictly increasing. *)
Lemma filter_seq_split (h : nat -> bool) a n pre o post :
  List.filter h (seq a n) = pre ++ o :: post -> forall y, In y post -> o < y.
Proof.
  revert a pre. induction n as [|n IH]; intros a pre H y Hy.
  - destruct pre; discriminate.
  - cbn [seq List.filter] in H. destruct (h a).
    + destruct pre as [|z pre].
      * injection H as <- <-. apply filter_In in Hy as [Hy _].
        apply in_seq in Hy. lia.
      * injection H as _ H. eauto.
    + eauto.
Qed.

(** ** The candidate loop of lines 80-89 *)

Section LocatorProofs.

Variable decompress : bytes -> nat -> option bytes.

Lemma try_positions_none (raw : bytes) ps cands :
  snd (try_positions decompress raw ps cands) = None <->
  Forall (fun q => valid_at decompress raw q = false) cands.
Proof.
  induction cands as [|q cands IH]; cbn; [split; auto|].
  rewrite Forall_cons. unfold valid_at at 1.
  destruct (decompress (drop q raw) EXPECTED_SIZE) as [dec|];
    [destruct (length dec =? EXPECTED_SIZE)|];
    try (destruct (try_positions decompress raw ps cands) as [calls r]; cbn in *);
    rewrite ?IH; intuition congruence.
Qed.

Lemma try_positions_some (raw : bytes) ps cands o t b :
  snd (try_positions decompress raw ps cands) = Some (o, t, b) ->
  exists pre post, cands = pre ++ o :: post /\
    Forall (fun q => valid_at decompress raw q = false) pre /\
    decompress (drop o raw) EXPECTED_SIZE = Some t /\
    length t = EXPECTED_SIZE /\ b = budget_of raw ps o.
Proof.
  induction cands as [|q cands IH]; cbn; [discriminate|].
  destruct (decompress (drop q raw) EXPECTED_SIZE) as [dec|] eqn:Hd.
  - destruct (length dec =? EXPECTED_SIZE) eqn:Hl.
    + cbn. intros [= <- <- <-]. exists [], cands. apply Nat.eqb_eq in Hl.
      repeat split; auto.
    + destruct (try_positions decompress raw ps cands) as [calls r] eqn:E.
      cbn. intros Hr. destruct (IH Hr) as (pre & post & -> & Hpre & Hrest).
      exists (q :: pre), post. split; [done|]. split; [|done].
      constructor; [|done]. unfold valid_at. rewrite Hd. done.
  - destruct (try_positions decompress raw ps cands) as [calls r] eqn:E.
    cbn. intros Hr. destruct (IH Hr) as (pre & post & -> & Hpre & Hrest).
    exists (q :: pre), post. split; [done|]. split; [|done].
    constructor; [|done]. unfold valid_at. rewrite Hd. done.
Qed.

(** The calls made are those of the rejected candidates, then of the
    accepted one if there is one. *)
Lemma try_positions_trace (raw : bytes) ps cands :
  (forall o t b, snd (try_positions decompress raw ps cands) = Some (o, t, b) ->
     exists pre post, cands = pre ++ o :: post /\
       Forall (fun q => valid_at decompress raw q = false) pre /\
       valid_at decompress raw o = true /\
       fst (try_positions decompress raw ps cands) =
         map (fun p => (p, EXPECTED_SIZE)) (pre ++ [o])) /\
  (snd (try_positions decompress raw ps cands) = None ->
     fst (try_positions decompress raw ps cands) =
       map (fun p => (p, EXPECTED_SIZE)) cands).
Proof.
  induction cands as [|q cands [IHs IHn]]; cbn; [split; [discriminate|done]|].
  destruct (decompress (drop q raw) EXPECTED_SIZE) as [dec|] eqn:Hd;
    [destruct (length dec =? EXPECTED_SIZE) eqn:Hl|].
  - cbn. split; [|discriminate]. intros o t b [= <- _ _].
    exists [], cands. split; [done|]. split; [constructor|].
    split; [unfold valid_at; rewrite Hd; done|done].
  - destruct (try_positions decompress raw ps cands) as [calls r]. cbn in *.
    split.
    + intros o t b Hr. destruct (IHs o t b Hr) as (pre & post & -> & Hpre & Ho & Hc).
      exists (q :: pre), post. split; [done|].
      split; [constructor; [unfold valid_at; rewrite Hd; done|done]|].
      split; [done|]. rewrite Hc. done.
    + intros Hr. rewrite (IHn Hr). done.
  - destruct (try_positions decompress raw ps cands) as [calls r]. cbn in *.
    split.
    + intros o t b Hr. destruct (IHs o t b Hr) as (pre & post & -> & Hpre & Ho & Hc).
      exists (q :: pre), post. split; [done|].
      split; [constructor; [unfold valid_at; rewrite Hd; done|done]|].
      split; [done|]. rewrite Hc. done.
    + intros Hr. rewrite (IHn Hr). done.
Qed.

Lemma find_font_bundle_some (raw : bytes) o t b :
  find_font_bundle decompress raw = Some (o, t, b) ->
  magic_at raw o = true /\ valid_at decompress raw o = true /\
  length t = EXPECTED_SIZE /\ b = budget_of raw (magic_positions raw) o /\
  forall q, q < o -> magic_at raw q = true -> valid_at decompress raw q = false.
Proof.
  unfold find_font_bundle. intros H.
  destruct (try_positions_some _ _ _ _ _ _ H) as (pre & post & Hsplit & Hpre & Hd & Hl & Hb).
  assert (Ho : In o (magic_positions raw)) by (rewrite Hsplit; apply in_elt).
  apply in_magic_positions in Ho.
  split; [done|]. split; [unfold valid_at; rewrite Hd, Hl, Nat.eqb_refl; done|].
  split; [done|]. split; [done|].
  intros q Hq Hm. apply in_magic_positions in Hm. rewrite Hsplit in Hm.
  apply in_app_or in Hm as [Hm|[->|Hm]].
  - exact (proj1 (List.Forall_forall _ _) Hpre q Hm).
  - lia.
  - rewrite magic_positions_spec in Hsplit.
    pose proof (filter_seq_split _ _ _ _ _ _ Hsplit q Hm). lia.
Qed.

End LocatorProofs.

Lemma budget_of_bound (raw : bytes) o :
  budget_of raw (magic_positions raw) o <= length raw - o.
Proof.
  unfold budget_of. destruct (List.filter _ _) as [|x rest] eqn:E; [lia|].
  assert (Hx : In x (List.filter (fun x => o <? x) (magic_positions raw)))
    by (rewrite E; left; done).
  apply filter_In in Hx as [Hx _]. apply in_magic_positions, magic_at_lt in Hx. lia.
Qed.

Lemma find_font_bundle_bounds decompress (raw : bytes) o t b :
  find_font_bundle decompress raw = Some (o, t, b) ->
  o < length raw /\ b <= length raw - o.
Proof.
  intros H. destruct (find_font_bundle_some _ _ _ _ _ H) as (Hm & _ & _ & -> & _).
  split; [apply magic_at_lt; done | apply budget_of_bound].
Qed.

(** ** Claims about the locator *)

(** C1: with exactly one occurrence of [MAGIC] that decompresses to exactly
    [EXPECTED_SIZE] bytes among any number of decoys, [find_font_bundle]
    accepts that occurrence; the candidates are every occurrence of [MAGIC],
    overlapping ones included, in ascending order. *)
Theorem find_font_bundle_unique_valid decompress (raw : bytes) o :
  magic_at raw o = true ->
  valid_at decompress raw o = true ->
  (forall o', magic_at raw o' = true -> valid_at decompress raw o' = true -> o' = o) ->
  magic_positions raw = List.filter (magic_at raw) (seq 0 (length raw)) /\
  exists t b, find_font_bundle decompress raw = Some (o, t, b).
Proof.
  intros Hm Hv Huniq. split; [apply magic_positions_spec|].
  destruct (find_font_bundle decompress raw) as [[[o' t] b]|] eqn:E.
  - destruct (find_font_bundle_some _ _ _ _ _ E) as (Hm' & Hv' & _).
    rewrite (Huniq o' Hm' Hv'). eauto.
  - unfold find_font_bundle in E. apply try_positions_none in E.
    apply in_magic_positions in Hm.
    rewrite (proj1 (List.Forall_forall _ _) E o Hm) in Hv. discriminate.
Qed.

(** C4: the budget runs from the accepted offset to the next occurrence of
    [MAGIC], or to the end of the buffer when there is none. *)
Theorem find_font_bundle_budget decompress (raw : bytes) o t b :
  find_font_bundle decompress raw = Some (o, t, b) ->
  (forall o2, magic_at raw o2 = true -> o < o2 ->
     (forall o3, magic_at raw o3 = true -> o < o3 -> o2 <= o3) ->
     b = o2 - o) /\
  ((forall o2, magic_at raw o2 = true -> o2 <= o) -> b = length raw - o).
Proof.
  intros H. destruct (find_font_bundle_some _ _ _ _ _ H) as (_ & _ & _ & -> & _).
  unfold budget_of. rewrite magic_positions_spec, filter_filter_andb.
  destruct (List.filter _ (seq 0 (length raw))) as [|x rest] eqn:E.
  - split; [|done].
    intros o2 Hm2 Hlt _. exfalso.
    assert (Hin : In o2 (List.filter (fun x => (o <? x) && magic_at raw x) (seq 0 (length raw)))).
    { apply filter_In. split.
      - apply in_seq. pose proof (magic_at_lt _ _ Hm2). lia.
      - rewrite Hm2, andb_true_r. apply Nat.ltb_lt. done. }
    rewrite E in Hin. done.
  - destruct (filter_seq_head _ _ _ _ _ E) as (Hx & Hhx & Hmin).
    apply andb_true_iff in Hhx as [Hox Hmx]. apply Nat.ltb_lt in Hox.
    split.
    + intros o2 Hm2 Hlt Hleast.
      pose proof (Hleast x Hmx Hox).
      destruct (decide (o2 < x)) as [Hl|]; [|f_equal; lia].
      specialize (Hmin o2 ltac:(lia)). rewrite Hm2, andb_true_r in Hmin.
      apply Nat.ltb_ge in Hmin. lia.
    + intros Hnone. specialize (Hnone x Hmx). lia.
Qed.

(** C6: an accepted table always has exactly [EXPECTED_SIZE] bytes, and a
    buffer with no occurrence of [MAGIC] that decompresses to that size
    ends in BundleNotFound. *)
Theorem find_font_bundle_table_size decompress (raw : bytes) :
  (forall o t b, find_font_bundle decompress raw = Some (o, t, b) ->
     length t = EXPECTED_SIZE) /\
  ((forall o, magic_at raw o = true -> valid_at decompress raw o = false) ->
     find_font_bundle decompress raw = None).
Proof.
  split.
  - intros o t b H. apply (find_font_bundle_some _ _ _ _ _ H).
  - intros Hnone. unfold find_font_bundle. apply try_positions_none.
    apply List.Forall_forall. intros q Hq. apply Hnone, in_magic_positions. done.
Qed.

(** C8, as stated: every decompression attempt is capped at
    [EXPECTED_SIZE + 1].  It is not: the cap passed is [EXPECTED_SIZE]. *)
Lemma decompress_cap_not_plus_one :
  ~ (forall decompress (raw : bytes) p cap,
       In (p, cap) (decompress_calls decompress raw) -> cap = EXPECTED_SIZE + 1).
Proof.
  intros H.
  assert (Hc : decompress_calls (fun _ _ => None) MAGIC = [(0, EXPECTED_SIZE)])
    by reflexivity.
  specialize (H (fun _ _ => None) MAGIC 0 EXPECTED_SIZE).
  rewrite Hc in H. specialize (H (or_introl eq_refl)). lia.
Qed.

(** C8, amended: the candidates (every occurrence of [MAGIC], ascending)
    are tried in order, each on the suffix of the buffer that starts at it,
    with [max_output_size] equal to [EXPECTED_SIZE].  When a candidate is
    accepted, the calls are exactly those of the candidates before it, all
    rejected, and of the accepted one, and no later candidate is tried;
    when none is accepted, every candidate is tried. *)
Theorem decompress_calls_capped decompress (raw : bytes) :
  magic_positions raw = List.filter (magic_at raw) (seq 0 (length raw)) /\
  (forall o t b, find_font_bundle decompress raw = Some (o, t, b) ->
     exists pre post, magic_positions raw = pre ++ o :: post /\
       Forall (fun q => valid_at decompress raw q = false) pre /\
       valid_at decompress raw o = true /\
       decompress_calls decompress raw = map (fun p => (p, EXPECTED_SIZE)) (pre ++ [o])) /\
  (find_font_bundle decompress raw = None ->
     decompress_calls decompress raw = map (fun p => (p, EXPECTED_SIZE)) (magic_positions raw)).
Proof.
  split; [apply magic_positions_spec|].
  unfold find_font_bundle, decompress_calls. apply try_positions_trace.
Qed.

(** ** Bits of a glyph row (lines 150-155) *)

Section Bits.
Local Open Scope Z_scope.

Lemma bits16_bound (v : Z) :
  0 <= v -> (forall k, 16 <= k -> Z.testbit v k = false) -> v < 2 ^ 16.
Proof.
  intros Hv Hk.
  assert (E : Z.land v (Z.ones 16) = v).
  { apply Z.bits_inj'. intros n Hn.
    rewrite Z.land_spec, Z.testbit_ones by lia.
    destruct (Z.ltb_spec n 16).
    - rewrite (proj2 (Z.leb_le 0 n) Hn). apply andb_true_r.
    - rewrite Hk by lia. apply andb_false_l. }
  rewrite <- E, Z.land_ones by lia. apply Z.mod_pos_bound. lia.
Qed.

Lemma bits16_above (v : Z) k : 0 <= v < 2 ^ 16 -> 16 <= k -> Z.testbit v k = false.
Proof.
  intros Hv Hk. destruct (Z.eq_dec v 0) as [->|Hnz]; [apply Z.testbit_0_l|].
  apply Z.bits_above_log2; [lia|].
  apply (Z.log2_lt_pow2 v k); [lia|].
  assert (2 ^ 16 <= 2 ^ k) by (apply Z.pow_le_mono_r; lia). lia.
Qed.

(** The two bytes of lines 154-155 put back together give the row word. *)
Lemma word16_split (v : Z) :
  0 <= v < 2 ^ 16 ->
  Z.lor (Z.land v 0xFF) (Z.shiftl (Z.land (Z.shiftr v 8) 0xFF) 8) = v.
Proof.
  intros Hv. apply Z.bits_inj'. intros n Hn.
  change 0xFF with (Z.ones 8).
  rewrite Z.lor_spec, Z.land_spec, Z.shiftl_spec by lia.
  destruct (Z.ltb_spec n 8).
  - rewrite (Z.testbit_neg_r _ (n - 8)) by lia.
    rewrite Z.testbit_ones by lia.
    replace ((0 <=? n) && (n <? 8)) with true
      by (symmetry; apply andb_true_iff; split; [apply Z.leb_le|apply Z.ltb_lt]; lia).
    rewrite andb_true_r, orb_false_r. reflexivity.
  - rewrite Z.land_spec, Z.shiftr_spec, !Z.testbit_ones by lia.
    replace (n <? 8) with false by (symmetry; apply Z.ltb_ge; lia).
    replace (n - 8 + 8) with n by lia.
    rewrite andb_false_r, andb_false_r, orb_false_l.
    replace (0 <=? n - 8) with true by (symmetry; apply Z.leb_le; lia).
    destruct (Z.ltb_spec (n - 8) 8).
    + rewrite andb_true_r. reflexivity.
    + rewrite bits16_above by lia. reflexivity.
Qed.

End Bits.

(** What the loop of lines 151-153 does, from bit index [bit] on. *)
Lemma row_value_aux_spec (row : list bool) : forall bit (v0 : Z),
  bit + length row <= 16 -> (0 <= v0)%Z ->
  exists v, row_value_aux row bit v0 = Some v /\ (0 <= v)%Z /\
    (forall j on, row !! j = Some on ->
       Z.testbit v (Z.of_nat (15 - (bit + j))) =
       Z.testbit v0 (Z.of_nat (15 - (bit + j))) || on) /\
    (forall k, (15 - Z.of_nat bit < k)%Z -> Z.testbit v k = Z.testbit v0 k).
Proof.
  induction row as [|on row IH]; intros bit v0 Hlen Hv0; cbn [row_value_aux].
  - exists v0. split; [done|]. split; [done|]. split; [|done].
    intros j on Hj. rewrite lookup_nil in Hj. discriminate.
  - cbn [length] in Hlen.
    set (v1 := if on then Z.lor v0 (Z.shiftl 1 (Z.of_nat (15 - bit))) else v0).
    assert (Hv1 : forall k, Z.testbit v1 k =
              Z.testbit v0 k || (on && Z.eqb k (Z.of_nat (15 - bit)))).
    { intros k. subst v1. destruct on; cbn [andb].
      - destruct (Z.ltb_spec k 0).
        + rewrite !Z.testbit_neg_r by lia.
          replace (k =? Z.of_nat (15 - bit))%Z with false by (symmetry; apply Z.eqb_neq; lia).
          done.
        + rewrite Z.lor_spec, Z.shiftl_1_l, Z.pow2_bits_eqb by lia.
          rewrite Z.eqb_sym. done.
      - rewrite orb_false_r. done. }
    assert (Hv1nn : (0 <= v1)%Z).
    { subst v1. destruct on; [|done]. apply Z.lor_nonneg. split; [done|].
      rewrite Z.shiftl_1_l. apply Z.pow_nonneg. lia. }
    destruct (IH (S bit) v1 ltac:(lia) Hv1nn) as (v & Hrun & Hvnn & Hcols & Hhigh).
    exists v.
    split.
    { destruct on; [|exact Hrun].
      replace (15 <? bit) with false by (symmetry; apply Nat.ltb_ge; lia). exact Hrun. }
    split; [done|]. split.
    + intros [|j] on' Hj; cbn in Hj.
      * injection Hj as <-. rewrite Hhigh by lia. rewrite Hv1.
        replace (bit + 0) with bit by lia. rewrite Z.eqb_refl, andb_true_r. done.
      * pose proof (lookup_lt_Some _ _ _ Hj).
        replace (bit + S j) with (S bit + j) by lia. rewrite (Hcols j on' Hj), Hv1.
        replace (Z.of_nat (15 - (S bit + j)) =? Z.of_nat (15 - bit))%Z with false
          by (symmetry; apply Z.eqb_neq; lia).
        rewrite andb_false_r, orb_false_r. done.
    + intros k Hk. rewrite Hhigh by lia. rewrite Hv1.
      replace (k =? Z.of_nat (15 - bit))%Z with false by (symmetry; apply Z.eqb_neq; lia).
      rewrite andb_false_r, orb_false_r. done.
Qed.

(** A row of sixteen pixels is a 16-bit word whose bit [15 - col] is
    pixel [col]. *)
Lemma row_value_spec (row : list bool) :
  length row = GLYPH_W ->
  exists v, row_value row = Some v /\ (0 <= v < 2 ^ 16)%Z /\
    forall col on, row !! col = Some on -> Z.testbit v (Z.of_nat (15 - col)) = on.
Proof.
  intros Hlen. unfold GLYPH_W in Hlen.
  destruct (row_value_aux_spec row 0 0%Z ltac:(lia) ltac:(lia))
    as (v & Hrun & Hvnn & Hcols & Hhigh).
  exists v. split; [exact Hrun|]. split.
  - split; [done|]. apply bits16_bound; [done|].
    intros k Hk. rewrite Hhigh by lia. apply Z.testbit_0_l.
  - intros col on Hc. specialize (Hcols col on Hc). cbn [Nat.add] in Hcols.
    rewrite Hcols, Z.testbit_0_l. done.
Qed.

(** ** Writing one glyph into the table (lines 146-155) *)

Lemma bytearray_set_ok (b : bytes) i v :
  i < length b -> bytearray_set b i v = Some (<[i := v]> b).
Proof.
  intros H. unfold bytearray_set. replace (i <? length b) with true; [done|].
  symmetry. apply Nat.ltb_lt. done.
Qed.

Lemma write_rows_spec (bm : bitmap) off : forall m a (bundle : bytes),
  off + 2 * (a + m) <= length bundle ->
  (forall r, a <= r < a + m -> exists row, bm !! r = Some row /\ length row = GLYPH_W) ->
  exists t', write_rows bundle off bm (seq a m) = Some t' /\
    length t' = length bundle /\
    (forall i, i < off + 2 * a \/ off + 2 * (a + m) <= i -> t' !! i = bundle !! i) /\
    (forall r row, a <= r < a + m -> bm !! r = Some row ->
       exists v, row_value row = Some v /\
         t' !! (off + r * 2) = Some (Z.land v 0xFF) /\
         t' !! (off + r * 2 + 1) = Some (Z.land (Z.shiftr v 8) 0xFF)).
Proof.
  induction m as [|m IH]; intros a bundle Hlen Hrows.
  - exists bundle. split; [done|]. split; [done|]. split; [done|].
    intros r row Hr. lia.
  - destruct (Hrows a ltac:(lia)) as (row & Hrow & Hw).
    destruct (row_value_spec row Hw) as (v & Hv & _).
    set (b1 := <[off + a * 2 := Z.land v 0xFF]> bundle).
    set (b2 := <[off + a * 2 + 1 := Z.land (Z.shiftr v 8) 0xFF]> b1).
    assert (Hl1 : length b1 = length bundle) by apply length_insert.
    assert (Hl2 : length b2 = length bundle) by (subst b2; rewrite length_insert; done).
    destruct (IH (S a) b2 ltac:(lia)) as (t' & Hrun & Hlt & Hframe & Hcells).
    { intros r Hr. apply Hrows. lia. }
    exists t'.
    split.
    { cbn [seq write_rows]. rewrite Hrow. cbn. rewrite Hv. cbn.
      rewrite bytearray_set_ok by lia. cbn.
      rewrite bytearray_set_ok by (rewrite ?length_insert; lia). cbn. exact Hrun. }
    split; [lia|]. split.
    + intros i Hi. rewrite Hframe by lia. subst b2 b1.
      rewrite !list_lookup_insert_ne by lia. done.
    + intros r row' Hr Hrow'.
      destruct (decide (r = a)) as [->|Hne].
      * rewrite Hrow in Hrow'. injection Hrow' as <-. exists v.
        split; [done|].
        rewrite !Hframe by lia. subst b2 b1. split.
        -- rewrite list_lookup_insert_ne by lia.
           apply list_lookup_insert_eq. lia.
        -- apply list_lookup_insert_eq. rewrite length_insert. lia.
      * apply Hcells; [lia|done].
Qed.

Lemma patch_glyph_spec (bundle : bytes) cp (bm : bitmap) :
  cp * 32 + 32 <= length bundle ->
  length bm = GLYPH_H -> Forall (fun row => length row = GLYPH_W) bm ->
  exists t', patch_glyph bundle cp bm = Some t' /\
    length t' = length bundle /\
    (forall i, i < cp * 32 \/ cp * 32 + 32 <= i -> t' !! i = bundle !! i) /\
    (forall r row, bm !! r = Some row ->
       exists v, (0 <= v < 2 ^ 16)%Z /\
         (forall col on, row !! col = Some on -> Z.testbit v (Z.of_nat (15 - col)) = on) /\
         t' !! (cp * 32 + r * 2) = Some (Z.land v 0xFF) /\
         t' !! (cp * 32 + r * 2 + 1) = Some (Z.land (Z.shiftr v 8) 0xFF)).
Proof.
  intros Hlen Hh Hw. unfold GLYPH_H in Hh.
  unfold patch_glyph, BYTES_PER_GLYPH, GLYPH_H, BYTES_PER_ROW.
  destruct (write_rows_spec bm (cp * (16 * 2)) 16 0 bundle) as (t' & Hrun & Hlt & Hframe & Hcells).
  { lia. }
  { intros r Hr. destruct (lookup_lt_is_Some_2 bm r ltac:(lia)) as [row Hrow].
    exists row. split; [done|]. exact (Forall_lookup_1 _ _ _ _ Hw Hrow). }
  exists t'. split; [done|]. split; [done|]. split.
  - intros i Hi. apply Hframe. lia.
  - intros r row Hrow.
    pose proof (lookup_lt_Some _ _ _ Hrow) as Hr.
    destruct (row_value_spec row (Forall_lookup_1 _ _ _ _ Hw Hrow)) as (v & Hv & Hb & Hbits).
    destruct (Hcells r row ltac:(lia) Hrow) as (v' & Hv' & Hlo & Hhi).
    rewrite Hv in Hv'. injection Hv' as <-.
    exists v. split; [done|]. split; [done|].
    replace (cp * 32) with (cp * (16 * 2)) by lia. done.
Qed.

(** C2: for a 16x16 bitmap and a code point below [0x10000], patching
    writes the glyph at bytes [c*32 .. c*32+32) of the table and nowhere
    else: row [r] is a 16-bit word whose bit [15 - column] is that pixel,
    stored low byte first at [c*32 + 2r]. *)
Theorem patch_glyph_layout (bundle : bytes) cp (bm : bitmap) :
  cp < 0x10000 -> length bundle = EXPECTED_SIZE ->
  length bm = GLYPH_H -> Forall (fun row => length row = GLYPH_W) bm ->
  exists t', patch_glyph bundle cp bm = Some t' /\
    length t' = length bundle /\
    (forall i, i < cp * 32 \/ cp * 32 + 32 <= i -> t' !! i = bundle !! i) /\
    (forall r row, bm !! r = Some row ->
       exists v, (0 <= v < 2 ^ 16)%Z /\
         (forall col on, row !! col = Some on -> Z.testbit v (Z.of_nat (15 - col)) = on) /\
         t' !! (cp * 32 + r * 2) = Some (Z.land v 0xFF) /\
         t' !! (cp * 32 + r * 2 + 1) = Some (Z.land (Z.shiftr v 8) 0xFF)).
Proof.
  intros Hcp Hlen. apply patch_glyph_spec.
  rewrite Hlen. unfold EXPECTED_SIZE, BYTES_PER_GLYPH, GLYPH_H, BYTES_PER_ROW. lia.
Qed.

(** ** [pack] and [unpack] *)

Lemma lookup_map_std {A B} (f : A -> B) (l : list A) i : map f l !! i = f <$> l !! i.
Proof. revert i. induction l as [|x l IH]; intros [|i]; cbn; auto. Qed.

Lemma mapM_seq_spec (f : nat -> option bytes) : forall m a,
  (forall r, a <= r < a + m -> exists w, f r = Some w /\ length w = 2) ->
  exists ys, mapM f (seq a m) = Some ys /\
    forall r w k, a <= r < a + m -> f r = Some w -> k < 2 ->
      concat ys !! (2 * (r - a) + k) = w !! k.
Proof.
  induction m as [|m IH]; intros a Hf.
  - exists []. split; [done|]. intros. lia.
  - destruct (Hf a ltac:(lia)) as (w & Hw & Hlw).
    destruct (IH (S a)) as (ys & Hys & Hcells).
    { intros r Hr. apply Hf. lia. }
    exists (w :: ys). split.
    { cbn [seq mapM]. rewrite Hw. cbn. rewrite Hys. done. }
    intros r w' k Hr Hw' Hk. cbn [concat].
    destruct (decide (r = a)) as [->|Hne].
    + rewrite Hw in Hw'. injection Hw' as <-.
      rewrite lookup_app_l by lia. f_equal. lia.
    + rewrite lookup_app_r by lia.
      replace (2 * (r - a) + k - length w) with (2 * (r - S a) + k) by lia.
      apply Hcells; [lia|done|done].
Qed.

(** C3: [unpack] inverts [pack] on every 16x16 grid. *)
Theorem unpack_pack (bm : bitmap) :
  length bm = GLYPH_H -> Forall (fun row => length row = GLYPH_W) bm ->
  exists p, pack bm = Some p /\ unpack p = bm.
Proof.
  intros Hh Hw. unfold GLYPH_H in Hh.
  set (f := fun r => row ← bm !! r; v ← row_value row;
                     Some [Z.land v 0xFF; Z.land (Z.shiftr v 8) 0xFF]).
  assert (Hrow : forall r, r < 16 -> exists row v, bm !! r = Some row /\
            row_value row = Some v /\ (0 <= v < 2 ^ 16)%Z /\
            (forall col on, row !! col = Some on -> Z.testbit v (Z.of_nat (15 - col)) = on) /\
            length row = 16 /\
            f r = Some [Z.land v 0xFF; Z.land (Z.shiftr v 8) 0xFF]).
  { intros r Hr. destruct (lookup_lt_is_Some_2 bm r ltac:(lia)) as [row Hrow].
    pose proof (Forall_lookup_1 _ _ _ _ Hw Hrow) as Hlr.
    destruct (row_value_spec row Hlr) as (v & Hv & Hb & Hbits).
    exists row, v. do 5 (split; [done|]).
    subst f. cbv beta. rewrite Hrow. cbn. rewrite Hv. done. }
  destruct (mapM_seq_spec f 16 0) as (ys & Hys & Hcells).
  { intros r Hr. destruct (Hrow r ltac:(lia)) as (row & v & _ & _ & _ & _ & _ & Hf).
    eexists. split; [exact Hf|done]. }
  exists (concat ys). split.
  { unfold pack, GLYPH_H. change (mapM f (seq 0 16) ≫= (fun rows => Some (concat rows))
                                  = Some (concat ys)).
    rewrite Hys. done. }
  unfold unpack, GLYPH_H, GLYPH_W. apply list_eq. intros i.
  rewrite lookup_map_std.
  destruct (decide (i < 16)) as [Hi|Hi].
  - rewrite lookup_seq_lt by done. cbn [fmap option_fmap option_map Nat.add].
    destruct (Hrow i Hi) as (row & v & Hbm & _ & Hb & Hbits & Hlr & Hf).
    rewrite Hbm. f_equal.
    pose proof (Hcells i _ 0 ltac:(lia) Hf ltac:(lia)) as Hlo.
    pose proof (Hcells i _ 1 ltac:(lia) Hf ltac:(lia)) as Hhi.
    replace (2 * (i - 0) + 0) with (i * 2) in Hlo by lia.
    replace (2 * (i - 0) + 1) with (i * 2 + 1) in Hhi by lia.
    rewrite Hlo, Hhi. cbn [lookup list_lookup default id].
    rewrite word16_split by done.
    apply list_eq. intros c. rewrite lookup_map_std.
    destruct (decide (c < 16)) as [Hc|Hc].
    + rewrite lookup_seq_lt by done.
      destruct (lookup_lt_is_Some_2 row c ltac:(lia)) as [on Hon].
      rewrite Hon. cbn. f_equal. apply Hbits. done.
    + rewrite lookup_seq_ge by lia.
      rewrite lookup_ge_None_2 by lia. done.
  - rewrite lookup_seq_ge by lia. rewrite lookup_ge_None_2 by lia. done.
Qed.

(** ** Patching only touches the glyphs of the selected ranges *)

Lemma bytearray_set_some (b b' : bytes) i v :
  bytearray_set b i v = Some b' -> b' = <[i := v]> b /\ i < length b.
Proof.
  unfold bytearray_set. destruct (i <? length b) eqn:E; [|discriminate].
  intros [= <-]. apply Nat.ltb_lt in E. done.
Qed.

Lemma write_rows_frame (bm : bitmap) off : forall rs (bundle t' : bytes),
  write_rows bundle off bm rs = Some t' -> Forall (fun r => r < 16) rs ->
  forall i, i < off \/ off + 32 <= i -> t' !! i = bundle !! i.
Proof.
  induction rs as [|r rs IH]; intros bundle t' H Hrs i Hi; cbn [write_rows] in H.
  - injection H as <-. done.
  - apply Forall_cons in Hrs as [Hr Hrs].
    destruct (bm !! r) as [row|]; cbn in H; [|discriminate].
    destruct (row_value row) as [v|]; cbn in H; [|discriminate].
    destruct (bytearray_set bundle _ _) as [b1|] eqn:E1; cbn in H; [|discriminate].
    destruct (bytearray_set b1 _ _) as [b2|] eqn:E2; cbn in H; [|discriminate].
    apply bytearray_set_some in E1 as [-> _]. apply bytearray_set_some in E2 as [-> _].
    rewrite (IH _ _ H Hrs i Hi). rewrite !list_lookup_insert_ne by lia. done.
Qed.

Lemma patch_glyph_frame (bundle t' : bytes) cp (bm : bitmap) :
  patch_glyph bundle cp bm = Some t' ->
  forall i, i < cp * 32 \/ cp * 32 + 32 <= i -> t' !! i = bundle !! i.
Proof.
  unfold patch_glyph, BYTES_PER_GLYPH, GLYPH_H, BYTES_PER_ROW. intros H i Hi.
  apply (write_rows_frame bm _ _ _ _ H).
  - apply List.Forall_forall. intros r Hr. apply in_seq in Hr. lia.
  - lia.
Qed.

Section PatchProofs.

Variable rasterize : nat -> bitmap.

Lemma patch_cps_frame : forall cps (bundle t' : bytes),
  patch_cps rasterize bundle cps = Some t' ->
  forall i, (forall cp, In cp cps -> i < cp * 32 \/ cp * 32 + 32 <= i) ->
  t' !! i = bundle !! i.
Proof.
  induction cps as [|cp cps IH]; intros bundle t' H i Hi; cbn [patch_cps] in H.
  - injection H as <-. done.
  - destruct (0x10FFFF <? cp); [discriminate|].
    destruct (patch_glyph bundle cp (rasterize cp)) as [b1|] eqn:E; cbn in H; [|discriminate].
    rewrite (IH _ _ H i) by (intros; apply Hi; right; done).
    apply (patch_glyph_frame _ _ _ _ E). apply Hi. left. done.
Qed.

(** C7: patching a list of code point ranges changes no byte outside the
    32-byte glyphs of the code points in those half-open ranges. *)
Theorem patch_ranges_frame (bundle t' : bytes) ranges :
  patch_ranges rasterize bundle ranges = Some t' ->
  forall i, (forall s e cp, In (s, e) ranges -> s <= cp < e ->
               i < cp * 32 \/ cp * 32 + 32 <= i) ->
  t' !! i = bundle !! i.
Proof.
  revert bundle. induction ranges as [|[s e] ranges IH]; intros bundle H i Hi;
    cbn [patch_ranges] in H.
  - injection H as <-. done.
  - destruct (patch_cps rasterize bundle (seq s (e - s))) as [b1|] eqn:E;
      cbn in H; [|discriminate].
    rewrite (IH _ H i) by (intros s' e' cp Hin; apply Hi; right; done).
    apply (patch_cps_frame _ _ _ E). intros cp Hcp. apply in_seq in Hcp.
    apply (Hi s e); [left; done|lia].
Qed.

Hypothesis rasterize_16x16 : forall cp,
  length (rasterize cp) = GLYPH_H /\ Forall (fun row => length row = GLYPH_W) (rasterize cp).

Lemma patch_cps_ok : forall cps (bundle : bytes),
  (forall cp, In cp cps -> cp * 32 + 32 <= length bundle /\ cp <= 0x10FFFF) ->
  exists t', patch_cps rasterize bundle cps = Some t' /\ length t' = length bundle.
Proof.
  induction cps as [|cp cps IH]; intros bundle Hcps; cbn [patch_cps]; [eauto|].
  destruct (Hcps cp (or_introl eq_refl)) as [Hroom Hmax].
  replace (0x10FFFF <? cp) with false by (symmetry; apply Nat.ltb_ge; lia).
  destruct (rasterize_16x16 cp) as [Hh Hw].
  destruct (patch_glyph_spec bundle cp (rasterize cp) Hroom Hh Hw) as (b1 & E & Hl1 & _).
  rewrite E. cbn.
  destruct (IH b1) as (t' & Ht' & Hlt).
  { intros cp' Hin. rewrite Hl1. apply Hcps. right. done. }
  exists t'. split; [done|lia].
Qed.

Lemma patch_ranges_ok : forall ranges (bundle : bytes),
  (forall s e cp, In (s, e) ranges -> s <= cp < e ->
     cp * 32 + 32 <= length bundle /\ cp <= 0x10FFFF) ->
  exists t', patch_ranges rasterize bundle ranges = Some t' /\ length t' = length bundle.
Proof.
  induction ranges as [|[s e] ranges IH]; intros bundle Hr; cbn [patch_ranges]; [eauto|].
  destruct (patch_cps_ok (seq s (e - s)) bundle) as (b1 & E & Hl1).
  { intros cp Hcp. apply in_seq in Hcp. apply (Hr s e); [left; done|lia]. }
  rewrite E. cbn.
  destruct (IH b1) as (t' & Ht' & Hlt).
  { intros s' e' cp Hin Hcp. rewrite Hl1. apply (Hr s' e'); [right; done|done]. }
  exists t'. split; [done|lia].
Qed.

End PatchProofs.

(** ** Write-back (lines 157-164) *)

Lemma splice_length (raw comp : bytes) o :
  o + length comp <= length raw -> length (splice raw o comp) = length raw.
Proof.
  intros H. unfold splice. rewrite !length_app, length_take, length_drop. lia.
Qed.

Lemma splice_lookup_out (raw comp : bytes) o i :
  o + length comp <= length raw -> i < o \/ o + length comp <= i ->
  splice raw o comp !! i = raw !! i.
Proof.
  intros H [Hi|Hi]; unfold splice.
  - rewrite lookup_app_l by (rewrite length_take; lia).
    apply lookup_take_lt. done.
  - rewrite lookup_app_r by (rewrite length_take; lia).
    rewrite lookup_app_r by (rewrite length_take; lia).
    rewrite lookup_drop, length_take. f_equal. lia.
Qed.

Lemma splice_lookup_in (raw comp : bytes) o j :
  o <= length raw -> j < length comp -> splice raw o comp !! (o + j) = comp !! j.
Proof.
  intros H Hj. unfold splice.
  rewrite lookup_app_r by (rewrite length_take; lia).
  rewrite lookup_app_l by (rewrite length_take; lia).
  rewrite length_take. f_equal. lia.
Qed.

(** C5: when the level-22 compression of the edited table is longer than
    the budget, the run ends with exit code 1 and the file keeps the bytes
    it had: the write-back step returns the buffer unspliced, and so does
    [main] whenever it reaches that step. *)
Theorem main_bundle_too_large (decompress : bytes -> nat -> option bytes)
    (compress : bytes -> bytes) (rasterize : nat -> bitmap) (argv : list string)
    (lang : string) (font_num : bool) (raw : bytes) (rs : list (nat * nat))
    (o : nat) (t : bytes) (limit : nat) (t' : bytes) :
  3 <= length argv -> argv !! 1 = Some lang ->
  assoc_get lang FONT_RANGES = Some rs ->
  find_font_bundle decompress raw = Some (o, t, limit) ->
  patch_ranges rasterize t (if font_num then rs ++ DIGITS else rs) = Some t' ->
  limit < length (compress t') ->
  write_back compress raw o t' limit = (1, raw) /\
  main decompress compress rasterize argv font_num true raw = (1, raw).
Proof.
  intros Hargc Hlang Hrs Hfind Hpatch Hbig.
  assert (Hwb : write_back compress raw o t' limit = (1, raw)).
  { unfold write_back. replace (limit <? length (compress t')) with true; [done|].
    symmetry. apply Nat.ltb_lt. done. }
  split; [done|].
  destruct argv as [|a0 [|a1 [|a2 rest]]]; cbn in Hargc; try lia.
  cbn in Hlang. injection Hlang as ->.
  unfold main. rewrite Hrs, Hfind, Hpatch. done.
Qed.

(** C9: a write-back that fits overwrites exactly [len(comp)] bytes at the
    accepted offset; the rest of the budget and every byte outside the
    spliced region keep their original values. *)
Theorem write_back_splice (decompress : bytes -> nat -> option bytes)
    (compress : bytes -> bytes) (raw : bytes) (o : nat) (t : bytes) (limit : nat)
    (bundle raw' : bytes) :
  find_font_bundle decompress raw = Some (o, t, limit) ->
  length (compress bundle) < limit ->
  write_back compress raw o bundle limit = (0, raw') ->
  length raw' = length raw /\
  (forall i, i < o \/ o + length (compress bundle) <= i -> raw' !! i = raw !! i) /\
  (forall j, j < length (compress bundle) -> raw' !! (o + j) = compress bundle !! j).
Proof.
  intros Hfind Hfit Hwb.
  destruct (find_font_bundle_bounds _ _ _ _ _ Hfind) as [Ho Hlim].
  unfold write_back in Hwb.
  replace (limit <? length (compress bundle)) with false in Hwb
    by (symmetry; apply Nat.ltb_ge; lia).
  injection Hwb as <-.
  split; [apply splice_length; lia|]. split.
  - intros i Hi. apply splice_lookup_out; lia.
  - intros j Hj. apply splice_lookup_in; lia.
Qed.

(** C10: a run that exits with code 0 leaves a file of the same length. *)
Theorem main_preserves_length (decompress : bytes -> nat -> option bytes)
    (compress : bytes -> bytes) (rasterize : nat -> bitmap) (argv : list string)
    (font_num font_found : bool) (raw raw' : bytes) :
  main decompress compress rasterize argv font_num font_found raw = (0, raw') ->
  length raw' = length raw.
Proof.
  unfold main. intros H.
  destruct argv as [|a0 [|lang [|a2 rest]]]; try discriminate.
  destruct (assoc_get lang FONT_RANGES) as [rs|]; [|injection H as <-; done].
  destruct (find_font_bundle decompress raw) as [[[o t] limit]|] eqn:Hfind; [|discriminate].
  destruct font_found; [|discriminate].
  destruct (patch_ranges rasterize t _) as [t'|]; [|discriminate].
  destruct (find_font_bundle_bounds _ _ _ _ _ Hfind) as [Ho Hlim].
  unfold write_back in H.
  destruct (limit <? length (compress t')) eqn:E; [discriminate|].
  apply Nat.ltb_ge in E. injection H as <-. apply splice_length. lia.
Qed.

(** * Witnesses on concrete inputs *)

Lemma sample_find : find_font_bundle sample_decompress sample_nro2 =
                    Some (0, repeat 0%Z EXPECTED_SIZE, 5).
Proof.
  unfold find_font_bundle.
  replace (magic_positions sample_nro2) with [0; 5] by reflexivity.
  cbn [try_positions snd]. unfold sample_decompress at 1.
  replace (prefixb (MAGIC ++ [1%Z]) (drop 0 sample_nro2)) with true by reflexivity.
  rewrite repeat_length, Nat.eqb_refl. reflexivity.
Qed.

Lemma sample_valid_only_10 o :
  magic_at sample_nro o = true -> valid_at sample_decompress sample_nro o = true -> o = 10.
Proof.
  intros Hm Hv. pose proof (magic_at_lt _ _ Hm) as Hlt.
  assert (Hall : forallb (fun q => (q =? 10) || negb (valid_at sample_decompress sample_nro q))
                   (seq 0 (length sample_nro)) = true) by reflexivity.
  assert (Hin : In o (seq 0 (length sample_nro))) by (apply in_seq; lia).
  rewrite forallb_forall in Hall. specialize (Hall o Hin).
  rewrite Hv in Hall. cbn in Hall. rewrite orb_false_r in Hall. apply Nat.eqb_eq. done.
Qed.

Lemma find_font_bundle_unique_valid_witness :
  exists t b, find_font_bundle sample_decompress sample_nro = Some (10, t, b).
Proof.
  apply (find_font_bundle_unique_valid sample_decompress sample_nro 10).
  - reflexivity.
  - unfold valid_at. cbn -[EXPECTED_SIZE repeat]. unfold sample_decompress.
    replace (prefixb (MAGIC ++ [1%Z]) (drop 10 sample_nro)) with true by reflexivity.
    rewrite repeat_length. apply Nat.eqb_refl.
  - apply sample_valid_only_10.
Defined.

Lemma find_font_bundle_budget_witness :
  (forall o2, magic_at sample_nro2 o2 = true -> 0 < o2 ->
     (forall o3, magic_at sample_nro2 o3 = true -> 0 < o3 -> o2 <= o3) -> 5 = o2 - 0) /\
  ((forall o2, magic_at sample_nro2 o2 = true -> o2 <= 0) -> 5 = length sample_nro2 - 0).
Proof.
  apply (find_font_bundle_budget sample_decompress sample_nro2 0 (repeat 0%Z EXPECTED_SIZE) 5).
  apply sample_find.
Defined.

Lemma find_font_bundle_table_size_witness :
  find_font_bundle sample_decompress (MAGIC ++ [0%Z]) = None.
Proof.
  apply (proj2 (find_font_bundle_table_size sample_decompress (MAGIC ++ [0%Z]))).
  intros o Hm. pose proof (magic_at_lt _ _ Hm) as Hlt.
  assert (Hall : forallb (fun q => negb (valid_at sample_decompress (MAGIC ++ [0%Z]) q))
                   (seq 0 5) = true) by reflexivity.
  assert (Hin : In o (seq 0 5)) by (apply in_seq; cbn in Hlt; lia).
  rewrite forallb_forall in Hall. apply negb_true_iff, Hall, Hin.
Defined.

Lemma patch_glyph_layout_witness :
  exists t', patch_glyph (repeat 0%Z EXPECTED_SIZE) 0x41 checker_glyph = Some t' /\
    length t' = length (repeat 0%Z EXPECTED_SIZE) /\
    (forall i, i < 0x41 * 32 \/ 0x41 * 32 + 32 <= i -> t' !! i = repeat 0%Z EXPECTED_SIZE !! i) /\
    (forall r row, checker_glyph !! r = Some row ->
       exists v, (0 <= v < 2 ^ 16)%Z /\
         (forall col on, row !! col = Some on -> Z.testbit v (Z.of_nat (15 - col)) = on) /\
         t' !! (0x41 * 32 + r * 2) = Some (Z.land v 0xFF) /\
         t' !! (0x41 * 32 + r * 2 + 1) = Some (Z.land (Z.shiftr v 8) 0xFF)).
Proof.
  apply patch_glyph_layout.
  - apply Nat.ltb_lt. reflexivity.
  - apply repeat_length.
  - reflexivity.
  - vm_compute. repeat constructor.
Defined.

Lemma unpack_pack_witness :
  exists p, pack checker_glyph = Some p /\ unpack p = checker_glyph.
Proof.
  apply unpack_pack; [reflexivity|]. vm_compute. repeat constructor.
Defined.

Lemma patch_ranges_frame_witness :
  match patch_ranges blank_glyph (repeat 1%Z 64) [(0, 1)] with
  | Some t' => t' !! 32 = repeat 1%Z 64 !! 32
  | None => False
  end.
Proof.
  destruct (patch_ranges blank_glyph (repeat 1%Z 64) [(0, 1)]) as [t'|] eqn:E.
  - apply (patch_ranges_frame blank_glyph _ _ _ E 32).
    intros s e cp [[= <- <-]|[]] Hcp. lia.
  - vm_compute in E. discriminate.
Defined.

Lemma blank_glyph_16x16 cp :
  length (blank_glyph cp) = GLYPH_H /\
  Forall (fun row => length row = GLYPH_W) (blank_glyph cp).
Proof. split; [reflexivity|]. vm_compute. repeat constructor. Qed.

Lemma sample_patch_en :
  exists t', patch_ranges blank_glyph (repeat 0%Z EXPECTED_SIZE) LATIN_BASIC = Some t'.
Proof.
  destruct (patch_ranges_ok blank_glyph blank_glyph_16x16 LATIN_BASIC
              (repeat 0%Z EXPECTED_SIZE)) as (t' & Ht' & _).
  - intros s e cp Hin Hcp. rewrite repeat_length.
    assert (e <= 0x7B) by (destruct Hin as [[= <- <-]|[[= <- <-]|[]]]; lia).
    assert (0x7B * 32 <= EXPECTED_SIZE) by (apply Nat.leb_le; reflexivity).
    assert (0x7B <= 0x10FFFF) by (apply Nat.leb_le; reflexivity).
    lia.
  - exists t'. done.
Qed.

(** The run of [main] for ["en"] on [sample_nro2], up to the write-back. *)
Lemma sample_main_en compress t' :
  patch_ranges blank_glyph (repeat 0%Z EXPECTED_SIZE) LATIN_BASIC = Some t' ->
  main sample_decompress compress blank_glyph (sample_argv "en") false true sample_nro2 =
  write_back compress sample_nro2 0 t' 5.
Proof.
  intros Ht'. unfold main, sample_argv. cbv iota.
  replace (assoc_get "en" FONT_RANGES) with (Some LATIN_BASIC) by reflexivity.
  rewrite sample_find. cbv iota beta. rewrite Ht'. reflexivity.
Qed.

Lemma main_bundle_too_large_witness :
  exists t', patch_ranges blank_glyph (repeat 0%Z EXPECTED_SIZE) LATIN_BASIC = Some t' /\
    write_back (fun _ => repeat 0%Z 6) sample_nro2 0 t' 5 = (1, sample_nro2) /\
    main sample_decompress (fun _ => repeat 0%Z 6) blank_glyph (sample_argv "en")
         false true sample_nro2 = (1, sample_nro2).
Proof.
  destruct sample_patch_en as [t' Ht'].
  exists t'. split; [exact Ht'|].
  apply (main_bundle_too_large sample_decompress (fun _ => repeat 0%Z 6) blank_glyph
           (sample_argv "en") "en" false sample_nro2 LATIN_BASIC 0
           (repeat 0%Z EXPECTED_SIZE) 5 t').
  - cbn. lia.
  - reflexivity.
  - reflexivity.
  - apply sample_find.
  - exact Ht'.
  - cbn. lia.
Defined.

Lemma write_back_splice_witness :
  length [7; 7; 0x2F; 0xFD; 1; 0x28; 0xB5; 0x2F; 0xFD; 0]%Z = length sample_nro2 /\
  (forall i, i < 0 \/ 0 + length [7; 7]%Z <= i ->
     [7; 7; 0x2F; 0xFD; 1; 0x28; 0xB5; 0x2F; 0xFD; 0]%Z !! i = sample_nro2 !! i) /\
  (forall j, j < length [7; 7]%Z ->
     [7; 7; 0x2F; 0xFD; 1; 0x28; 0xB5; 0x2F; 0xFD; 0]%Z !! (0 + j) = [7; 7]%Z !! j).
Proof.
  apply (write_back_splice sample_decompress (fun _ => [7; 7]%Z) sample_nro2 0
           (repeat 0%Z EXPECTED_SIZE) 5 []).
  - apply sample_find.
  - cbn. lia.
  - reflexivity.
Defined.

Lemma main_preserves_length_witness :
  length [7; 7; 0x2F; 0xFD; 1; 0x28; 0xB5; 0x2F; 0xFD; 0]%Z = length sample_nro2.
Proof.
  destruct sample_patch_en as [t' Ht'].
  apply (main_preserves_length sample_decompress (fun _ => [7; 7]%Z) blank_glyph
           (sample_argv "en") false true sample_nro2).
  rewrite (sample_main_en _ _ Ht'). reflexivity.
Defined.

(** * Further properties of the script *)

(** ** [str.strip] and [str.split] *)

Abbreviation spaces p := (Forall (fun c => is_space c = true) p).

Lemma lstrip_app (s t : chars) :
  lstrip (s ++ t) = match lstrip s with [] => lstrip t | _ => lstrip s ++ t end.
Proof.
  induction s as [|c s IH]; cbn; [done|]. destruct (is_space c); [exact IH|done].
Qed.

Lemma lstrip_spaces (p s : chars) : spaces p -> lstrip (p ++ s) = lstrip s.
Proof. induction 1 as [|c p Hc _ IH]; cbn; [done|]. rewrite Hc. exact IH. Qed.

Lemma lstrip_all_spaces (p : chars) : spaces p -> lstrip p = [].
Proof. intros H. rewrite <- (app_nil_r p), lstrip_spaces by done. done. Qed.

Lemma lstrip_idem (s : chars) : lstrip (lstrip s) = lstrip s.
Proof.
  induction s as [|c s IH]; cbn; [done|].
  destruct (is_space c) eqn:E; [exact IH|]. cbn. rewrite E. done.
Qed.

Lemma lstrip_head (s r : chars) c : lstrip s = c :: r -> is_space c = false.
Proof.
  induction s as [|c' s IH]; cbn; [discriminate|].
  destruct (is_space c') eqn:E; [exact IH|]. intros [= <- _]. done.
Qed.

Lemma lstrip_suffix (s : chars) : exists a, spaces a /\ s = a ++ lstrip s.
Proof.
  induction s as [|c s (a & Ha & Hs)]; cbn; [exists []; done|].
  destruct (is_space c) eqn:E.
  - exists (c :: a). split; [constructor; done|]. cbn. rewrite <- Hs. done.
  - exists []. done.
Qed.

Lemma rstrip_app (s t : chars) :
  rstrip (s ++ t) = match rstrip t with [] => rstrip s | _ => s ++ rstrip t end.
Proof.
  unfold rstrip. rewrite reverse_app, lstrip_app.
  destruct (lstrip (reverse t)) as [|a l] eqn:E; [done|].
  rewrite reverse_app, reverse_involutive.
  destruct (reverse (a :: l)) eqn:E2; [|done].
  apply (f_equal length) in E2. rewrite length_reverse in E2. discriminate.
Qed.

Lemma rstrip_spaces (p s : chars) : spaces p -> rstrip (s ++ p) = rstrip s.
Proof.
  intros Hp. rewrite rstrip_app. unfold rstrip at 1.
  rewrite lstrip_all_spaces by (apply Forall_reverse; done). done.
Qed.

Lemma rstrip_prefix (s : chars) : exists b, s = rstrip s ++ b.
Proof.
  destruct (lstrip_suffix (reverse s)) as (a & _ & Ha).
  exists (reverse a). unfold rstrip.
  rewrite <- reverse_app, <- Ha, reverse_involutive. done.
Qed.

Lemma rstrip_idem (s : chars) : rstrip (rstrip s) = rstrip s.
Proof. unfold rstrip. rewrite reverse_involutive, lstrip_idem. done. Qed.

Lemma lstrip_rstrip (s : chars) : lstrip (rstrip s) = rstrip (lstrip s).
Proof.
  destruct (lstrip_suffix s) as (a & Ha & Hs).
  set (y := lstrip s) in *.
  rewrite Hs at 1. rewrite rstrip_app.
  destruct (rstrip y) as [|c l] eqn:E.
  - unfold rstrip at 1. rewrite (lstrip_all_spaces (reverse a)) by (apply Forall_reverse; done). done.
  - rewrite lstrip_spaces by done.
    destruct (rstrip_prefix y) as [b Hb]. rewrite E in Hb.
    assert (Hc : is_space c = false) by (apply (lstrip_head s (l ++ b)); fold y; rewrite Hb; done).
    cbn. rewrite Hc. done.
Qed.

Lemma strip_pad (p1 s p2 : chars) : spaces p1 -> spaces p2 -> strip (p1 ++ s ++ p2) = strip s.
Proof.
  intros H1 H2. unfold strip. rewrite lstrip_spaces, lstrip_app by done.
  destruct (lstrip s) as [|c l] eqn:E.
  - rewrite lstrip_all_spaces by done. done.
  - rewrite rstrip_spaces by done. done.
Qed.

Lemma split_eq_app (k v : chars) : ~ In EQ_SIGN k -> split_eq (k ++ EQ_SIGN :: v) = Some (k, v).
Proof.
  induction k as [|c k IH]; intros Hk; [reflexivity|].
  cbn [app split_eq].
  destruct (c =? EQ_SIGN) eqn:E.
  - apply Nat.eqb_eq in E. subst c. exfalso. apply Hk. left. done.
  - rewrite IH by (intros H; apply Hk; right; done). done.
Qed.

Lemma split_eq_some (s k v : chars) :
  split_eq s = Some (k, v) -> s = k ++ EQ_SIGN :: v /\ ~ In EQ_SIGN k.
Proof.
  revert k. induction s as [|c s IH]; intros k; cbn [split_eq]; [discriminate|].
  destruct (c =? EQ_SIGN) eqn:E.
  - apply Nat.eqb_eq in E. subst c. intros [= <- <-]. split; [done|]. intros [].
  - destruct (split_eq s) as [[k0 v0]|] eqn:Hs; [|discriminate].
    intros [= <- <-]. destruct (IH k0 eq_refl) as [-> Hk0].
    split; [done|]. intros [Hc|Hin]; [|exact (Hk0 Hin)].
    subst c. rewrite Nat.eqb_refl in E. discriminate.
Qed.

(** Stripping the whole line first moves the split point nowhere. *)
Lemma split_eq_strip (line k v : chars) :
  split_eq line = Some (k, v) -> split_eq (strip line) = Some (lstrip k, rstrip v).
Proof.
  intros Hs. destruct (split_eq_some _ _ _ Hs) as [-> Hk].
  assert (Hl : lstrip (k ++ EQ_SIGN :: v) = lstrip k ++ EQ_SIGN :: v).
  { rewrite lstrip_app. destruct (lstrip k); done. }
  assert (Hr : rstrip (EQ_SIGN :: v) = EQ_SIGN :: rstrip v).
  { change (EQ_SIGN :: v) with ([EQ_SIGN] ++ v). rewrite rstrip_app.
    destruct (rstrip v); done. }
  unfold strip. rewrite Hl, rstrip_app, Hr.
  apply split_eq_app. intros Hin. apply Hk.
  destruct (lstrip_suffix k) as (a & _ & Ha). rewrite Ha. apply in_or_app. right. done.
Qed.

Lemma default_last_cons {A} (d x : A) l : default d (last (x :: l)) = default x (last l).
Proof.
  destruct l as [|y l]; [done|].
  destruct (last (y :: l)) eqn:E; [|apply last_None in E; discriminate].
  change (last (x :: y :: l)) with (last (y :: l)). rewrite E. done.
Qed.

Section ConfigProofs.

Variable lower : chars -> chars.

Lemma font_num_setting_split (line k v : chars) :
  split_eq line = Some (k, v) ->
  font_num_setting lower line =
    if bool_decide (strip k = FONT_NUM_KEY)
    then Some (bool_decide (lower (strip v) = TRUE_TEXT)) else None.
Proof.
  intros Hs. unfold font_num_setting. rewrite (split_eq_strip _ _ _ Hs).
  assert (Hk : strip (lstrip k) = strip k) by (unfold strip; rewrite lstrip_idem; done).
  assert (Hv : strip (rstrip v) = strip v)
    by (unfold strip; rewrite <- !lstrip_rstrip, rstrip_idem; done).
  rewrite Hk, Hv. done.
Qed.

Lemma config_loop_step (b : bool) (line : chars) lines :
  config_loop lower b (line :: lines) =
  config_loop lower (match font_num_setting lower line with Some x => x | None => b end) lines.
Proof.
  cbn [config_loop]. unfold font_num_setting.
  destruct (split_eq (strip line)) as [[k v]|]; [|done].
  destruct (bool_decide (strip k = FONT_NUM_KEY)); done.
Qed.

Lemma config_loop_last (b : bool) lines :
  config_loop lower b lines = default b (last (omap (font_num_setting lower) lines)).
Proof.
  revert b. induction lines as [|line lines IH]; intros b; [done|].
  rewrite config_loop_step, IH.
  destruct (font_num_setting lower line) as [x|] eqn:E; cbn [omap list_omap]; rewrite E; [|done].
  rewrite default_last_cons. done.
Qed.

(** ** [load_config] (lines 43-61) *)

(** X1: the [font_num] setting is the one made by the last line of
    config.txt whose key, before its first ["="], is [font_num]; lines
    without ["="] or with another key play no part, and with no such line
    or no readable file the setting is [False]. *)
Theorem load_config_last_setting (f : option (list chars)) :
  load_config lower f =
    match f with
    | None => false
    | Some lines => default false (last (omap (font_num_setting lower) lines))
    end.
Proof. destruct f as [lines|]; [apply config_loop_last|done]. Qed.

(** X2: whitespace ([str.isspace], Unicode included) around the line, the
    key, the ["="] and the value does not matter: the setting is decided by
    [lower] of the stripped value alone. *)
Theorem font_num_line_padding (p1 p2 p3 p4 v : chars) :
  forallb is_space (p1 ++ p2 ++ p3 ++ p4) = true -> strip v = v ->
  font_num_setting lower (p1 ++ FONT_NUM_KEY ++ p2 ++ EQ_SIGN :: p3 ++ v ++ p4) =
    Some (bool_decide (lower v = TRUE_TEXT)).
Proof.
  intros Hsp Hv. pose proof (proj1 (forallb_forall _ _) Hsp) as Hsp'; clear Hsp.
  assert (Hs : forall p, (forall c, In c p -> In c (p1 ++ p2 ++ p3 ++ p4)) -> spaces p).
  { intros p Hp. apply List.Forall_forall. intros c Hc. apply Hsp', Hp, Hc. }
  assert (H1 : spaces p1) by (apply Hs; intros c Hc; apply in_or_app; left; done).
  assert (H2 : spaces p2)
    by (apply Hs; intros c Hc; apply in_or_app; right; apply in_or_app; left; done).
  assert (H3 : spaces p3)
    by (apply Hs; intros c Hc; do 2 (apply in_or_app; right); apply in_or_app; left; done).
  assert (H4 : spaces p4) by (apply Hs; intros c Hc; do 3 (apply in_or_app; right); done).
  assert (Hnoeq : forall p, spaces p -> ~ In EQ_SIGN p).
  { intros p Hp Hin. pose proof (proj1 (List.Forall_forall _ _) Hp _ Hin). discriminate. }
  assert (Hkey : ~ In EQ_SIGN FONT_NUM_KEY) by (cbn; intuition discriminate).
  replace (p1 ++ FONT_NUM_KEY ++ p2 ++ EQ_SIGN :: p3 ++ v ++ p4)
    with ((p1 ++ FONT_NUM_KEY ++ p2) ++ EQ_SIGN :: p3 ++ v ++ p4)
    by (rewrite <- !app_assoc; done).
  assert (Hk : ~ In EQ_SIGN (p1 ++ FONT_NUM_KEY ++ p2)).
  { intros Hin. apply in_app_or in Hin as [Hin|Hin]; [exact (Hnoeq p1 H1 Hin)|].
    apply in_app_or in Hin as [Hin|Hin]; [exact (Hkey Hin)|exact (Hnoeq p2 H2 Hin)]. }
  rewrite (font_num_setting_split _ _ _ (split_eq_app _ _ Hk)).
  rewrite !strip_pad by done. rewrite Hv.
  rewrite bool_decide_eq_true_2 by reflexivity. done.
Qed.

End ConfigProofs.


(** ** Markers and budgets *)

Lemma prefixb_lookup (sub s : bytes) :
  prefixb sub s = true -> forall k, k < length sub -> s !! k = sub !! k.
Proof.
  revert s. induction sub as [|x sub IH]; intros s H k Hk; cbn in Hk; [lia|].
  destruct s as [|y s]; cbn in H; [discriminate|].
  apply andb_true_iff in H as [Hxy H]. apply Z.eqb_eq in Hxy as ->.
  destruct k as [|k]; [done|]. cbn. apply IH; [done|lia].
Qed.

Lemma magic_at_lookup (raw : bytes) i :
  magic_at raw i = true -> forall k, k < 4 -> raw !! (i + k) = MAGIC !! k.
Proof. intros H k Hk. rewrite <- lookup_drop. apply prefixb_lookup; [done|cbn; lia]. Qed.

Lemma filter_all_false {A} (f : A -> bool) l : (forall x, f x = false) -> List.filter f l = [].
Proof. intros H. induction l as [|x l IH]; cbn; [done|]. rewrite H. exact IH. Qed.

(** ** What [main] does to the file *)

Lemma write_rows_bounds (bm : bitmap) off : forall rs (bundle t' : bytes),
  write_rows bundle off bm rs = Some t' ->
  length t' = length bundle /\ forall r, In r rs -> off + r * 2 + 1 < length bundle.
Proof.
  induction rs as [|r rs IH]; intros bundle t' H; cbn [write_rows] in H.
  - injection H as <-. split; [done|]. intros _ [].
  - destruct (bm !! r) as [row|]; cbn in H; [|discriminate].
    destruct (row_value row) as [v|]; cbn in H; [|discriminate].
    destruct (bytearray_set bundle _ _) as [b1|] eqn:E1; cbn in H; [|discriminate].
    destruct (bytearray_set b1 _ _) as [b2|] eqn:E2; cbn in H; [|discriminate].
    apply bytearray_set_some in E1 as [-> H1]. apply bytearray_set_some in E2 as [-> H2].
    rewrite length_insert in H2.
    destruct (IH _ _ H) as [Hl Hr]. rewrite !length_insert in Hl, Hr.
    split; [done|]. intros r' [<-|Hin]; [lia|]. apply Hr, Hin.
Qed.

Lemma pack_rows (bm : bitmap) :
  length bm = GLYPH_H -> Forall (fun row => length row = GLYPH_W) bm ->
  exists p, pack bm = Some p /\
    forall r row v, bm !! r = Some row -> row_value row = Some v ->
      p !! (r * 2) = Some (Z.land v 0xFF) /\ p !! (r * 2 + 1) = Some (Z.land (Z.shiftr v 8) 0xFF).
Proof.
  intros Hh Hw. unfold GLYPH_H in Hh.
  set (f := fun r => row ← bm !! r; v ← row_value row;
                     Some [Z.land v 0xFF; Z.land (Z.shiftr v 8) 0xFF]).
  assert (Hf : forall r row v, bm !! r = Some row -> row_value row = Some v ->
                 f r = Some [Z.land v 0xFF; Z.land (Z.shiftr v 8) 0xFF]).
  { intros r row v Hrow Hv. subst f. cbv beta. rewrite Hrow. cbn. rewrite Hv. done. }
  destruct (mapM_seq_spec f 16 0) as (ys & Hys & Hcells).
  { intros r Hr. destruct (lookup_lt_is_Some_2 bm r ltac:(lia)) as [row Hrow].
    destruct (row_value_spec row (Forall_lookup_1 _ _ _ _ Hw Hrow)) as (v & Hv & _).
    eexists. split; [exact (Hf r row v Hrow Hv)|done]. }
  exists (concat ys). split.
  { unfold pack, GLYPH_H. change (mapM f (seq 0 16) ≫= (fun rows => Some (concat rows))
                                  = Some (concat ys)).
    rewrite Hys. done. }
  intros r row v Hrow Hv. pose proof (lookup_lt_Some _ _ _ Hrow) as Hr.
  pose proof (Hcells r _ 0 ltac:(lia) (Hf r row v Hrow Hv) ltac:(lia)) as H0.
  pose proof (Hcells r _ 1 ltac:(lia) (Hf r row v Hrow Hv) ltac:(lia)) as H1.
  replace (2 * (r - 0) + 0) with (r * 2) in H0 by lia.
  replace (2 * (r - 0) + 1) with (r * 2 + 1) in H1 by lia.
  rewrite H0, H1. done.
Qed.

(** The slot of a patched glyph holds the 32 bytes of [pack]. *)
Lemma patch_glyph_content (bundle t' p : bytes) cp (bm : bitmap) :
  length bm = GLYPH_H -> Forall (fun row => length row = GLYPH_W) bm ->
  patch_glyph bundle cp bm = Some t' -> pack bm = Some p ->
  forall k, k < 32 -> t' !! (cp * 32 + k) = p !! k.
Proof.
  intros Hh Hw H Hp k Hk.
  destruct (pack_rows bm Hh Hw) as (p' & Hp' & Hcells).
  rewrite Hp in Hp'. injection Hp' as <-.
  unfold GLYPH_H in Hh.
  unfold patch_glyph, BYTES_PER_GLYPH, GLYPH_H, BYTES_PER_ROW in H.
  destruct (write_rows_bounds _ _ _ _ _ H) as [_ Hb].
  specialize (Hb 15 ltac:(apply in_seq; lia)).
  destruct (write_rows_spec bm (cp * (16 * 2)) 16 0 bundle) as (t'' & Hrun & _ & _ & Hrows).
  { lia. }
  { intros r Hr. destruct (lookup_lt_is_Some_2 bm r ltac:(lia)) as [row Hrow].
    exists row. split; [done|]. exact (Forall_lookup_1 _ _ _ _ Hw Hrow). }
  rewrite H in Hrun. injection Hrun as <-.
  destruct (Nat.Even_or_Odd k) as [[r Hr]|[r Hr]]; subst k;
    destruct (lookup_lt_is_Some_2 bm r ltac:(lia)) as [row Hrow];
    destruct (Hrows r row ltac:(lia) Hrow) as (v & Hv & Hlo & Hhi);
    destruct (Hcells r row v Hrow Hv) as [Plo Phi].
  - replace (cp * 32 + 2 * r) with (cp * (16 * 2) + r * 2) by lia.
    replace (2 * r) with (r * 2) by lia. rewrite Hlo, Plo. done.
  - replace (cp * 32 + (2 * r + 1)) with (cp * (16 * 2) + r * 2 + 1) by lia.
    replace (2 * r + 1) with (r * 2 + 1) by lia. rewrite Hhi, Phi. done.
Qed.

Lemma in_range_cps cp ranges :
  In cp (range_cps ranges) <-> exists s e, In (s, e) ranges /\ s <= cp < e.
Proof.
  unfold range_cps. rewrite in_concat. split.
  - intros (l & Hl & Hcp). apply in_map_iff in Hl as ([s e] & <- & Hin).
    apply in_seq in Hcp. exists s, e. split; [done|lia].
  - intros (s & e & Hin & Hcp). exists (seq s (e - s)). split.
    + apply in_map_iff. exists (s, e). done.
    + apply in_seq. lia.
Qed.

Lemma ranges_disjoint_nodup ranges :
  ranges_disjoint ranges = true -> NoDup (range_cps ranges).
Proof.
  induction ranges as [|[s e] ranges IH]; intros H; [constructor|].
  cbn [ranges_disjoint] in H. apply andb_true_iff in H as [Hd H].
  change (range_cps ((s, e) :: ranges)) with (seq s (e - s) ++ range_cps ranges).
  apply NoDup_app. split; [apply NoDup_seq|]. split; [|apply IH, H].
  intros x Hx1 Hx2. apply list_elem_of_In, in_seq in Hx1.
  apply list_elem_of_In, in_range_cps in Hx2 as (s' & e' & Hin & Hx).
  pose proof (proj1 (forallb_forall _ _) Hd _ Hin) as Hse. cbn beta iota in Hse.
  apply orb_true_iff in Hse as [Hse|Hse]; apply Nat.leb_le in Hse; lia.
Qed.

Section GlyphProofs.

Variable rasterize : nat -> bitmap.

Lemma patch_cps_app (bundle : bytes) l1 l2 :
  patch_cps rasterize bundle (l1 ++ l2) =
  patch_cps rasterize bundle l1 ≫= fun b => patch_cps rasterize b l2.
Proof.
  revert bundle. induction l1 as [|cp l1 IH]; intros bundle; [done|].
  cbn [app patch_cps]. destruct (0x10FFFF <? cp); [done|].
  destruct (patch_glyph bundle cp (rasterize cp)); cbn; [apply IH|done].
Qed.

Lemma patch_ranges_cps (bundle : bytes) ranges :
  patch_ranges rasterize bundle ranges = patch_cps rasterize bundle (range_cps ranges).
Proof.
  revert bundle. induction ranges as [|[s e] ranges IH]; intros bundle; [done|].
  cbn [patch_ranges].
  change (range_cps ((s, e) :: ranges)) with (seq s (e - s) ++ range_cps ranges).
  rewrite patch_cps_app.
  destruct (patch_cps rasterize bundle (seq s (e - s))); cbn; [apply IH|done].
Qed.

Hypothesis rasterize_16x16 : forall cp,
  length (rasterize cp) = GLYPH_H /\ Forall (fun row => length row = GLYPH_W) (rasterize cp).

Lemma patch_cps_glyph : forall cps (bundle t' p : bytes) cp,
  patch_cps rasterize bundle cps = Some t' -> NoDup cps -> In cp cps ->
  pack (rasterize cp) = Some p ->
  forall k, k < 32 -> t' !! (cp * 32 + k) = p !! k.
Proof.
  induction cps as [|c cps IH]; intros bundle t' p cp H Hnd Hin Hp k Hk; [destruct Hin|].
  cbn [patch_cps] in H. destruct (0x10FFFF <? c); [discriminate|].
  destruct (patch_glyph bundle c (rasterize c)) as [b1|] eqn:E; cbn in H; [|discriminate].
  apply NoDup_cons in Hnd as [Hc Hnd].
  destruct Hin as [<-|Hin].
  - rewrite (patch_cps_frame rasterize _ _ _ H).
    + destruct (rasterize_16x16 c) as [Hh Hw].
      exact (patch_glyph_content _ _ _ _ _ Hh Hw E Hp k Hk).
    + intros q Hq. assert (q <> c) by (intros ->; apply Hc, list_elem_of_In, Hq). lia.
  - exact (IH b1 t' p cp H Hnd Hin Hp k Hk).
Qed.

End GlyphProofs.

(** ** The language table *)

Lemma assoc_get_in k d v : assoc_get k d = Some v -> exists k', In (k', v) d.
Proof.
  induction d as [|[k' v'] d IH]; cbn; [discriminate|].
  destruct (String.eqb k k'); [intros [= <-]; exists k'; left; done|].
  intros H. destruct (IH H) as [k'' Hin]. exists k''. right. done.
Qed.

(** Every range of the table ends below [0xD7A4], starts past the digits,
    and the ranges of one language, with or without the digits, are
    pairwise disjoint. *)
Lemma font_ranges_facts lang rs :
  assoc_get lang FONT_RANGES = Some rs ->
  (forall s e, In (s, e) (rs ++ DIGITS) -> e <= 0xD7A4) /\
  (forall s e, In (s, e) rs -> 0x3A <= s) /\
  ranges_disjoint rs = true /\ ranges_disjoint (rs ++ DIGITS) = true.
Proof.
  intros H. destruct (assoc_get_in _ _ _ H) as [k Hin].
  assert (Hall : forallb (fun kv : string * list (nat * nat) =>
            forallb (fun se => snd se <=? 0xD7A4) (snd kv ++ DIGITS) &&
            forallb (fun se => 0x3A <=? fst se) (snd kv) &&
            ranges_disjoint (snd kv) && ranges_disjoint (snd kv ++ DIGITS)) FONT_RANGES = true)
    by reflexivity.
  pose proof (proj1 (forallb_forall _ _) Hall _ Hin) as Hk. cbn [fst snd] in Hk.
  apply andb_true_iff in Hk as [Hk Hd2]. apply andb_true_iff in Hk as [Hk Hd1].
  apply andb_true_iff in Hk as [Hb Hs].
  split; [intros s e Hse; apply Nat.leb_le, (proj1 (forallb_forall _ _) Hb _ Hse)|].
  split; [intros s e Hse; apply Nat.leb_le, (proj1 (forallb_forall _ _) Hs _ Hse)|].
  exact (conj Hd1 Hd2).
Qed.

Lemma row_value_aux_none (row : list bool) : forall bit (v : Z),
  row_value_aux row bit v = None <-> exists j, 16 <= bit + j /\ row !! j = Some true.
Proof.
  induction row as [|on row IH]; intros bit v; cbn [row_value_aux].
  - split; [discriminate|]. intros (j & _ & Hj). rewrite lookup_nil in Hj. discriminate.
  - destruct on.
    + destruct (15 <? bit) eqn:E.
      * apply Nat.ltb_lt in E. split; [intros _; exists 0; split; [lia|done]|done].
      * apply Nat.ltb_ge in E. rewrite IH. split.
        -- intros (j & Hj & Hl). exists (S j). split; [lia|exact Hl].
        -- intros ([|j] & Hj & Hl); [lia|]. exists j. split; [lia|exact Hl].
    + rewrite IH. split.
      -- intros (j & Hj & Hl). exists (S j). split; [lia|exact Hl].
      -- intros ([|j] & Hj & Hl); [discriminate|]. exists j. split; [lia|exact Hl].
Qed.

Lemma row_value_aux_all_off (row : list bool) : forall bit (v : Z),
  (forall j, row !! j <> Some true) -> row_value_aux row bit v = Some v.
Proof.
  induction row as [|on row IH]; intros bit v Hoff; cbn [row_value_aux]; [done|].
  destruct on; [exfalso; apply (Hoff 0); done|].
  apply IH. intros j. apply (Hoff (S j)).
Qed.

Lemma row_value_aux_take (row : list bool) : forall bit (v : Z),
  bit <= 16 -> (forall j, 16 <= bit + j -> row !! j <> Some true) ->
  row_value_aux row bit v = row_value_aux (take (16 - bit) row) bit v.
Proof.
  induction row as [|on row IH]; intros bit v Hbit Hoff; [rewrite take_nil; done|].
  destruct (decide (bit = 16)) as [->|Hlt].
  - rewrite Nat.sub_diag, take_0. cbn [row_value_aux].
    destruct on; [exfalso; apply (Hoff 0); [lia|done]|].
    apply row_value_aux_all_off. intros j. apply (Hoff (S j)). lia.
  - replace (16 - bit) with (S (16 - S bit)) by lia.
    cbn [take row_value_aux].
    assert (Hoff' : forall j, 16 <= S bit + j -> row !! j <> Some true)
      by (intros j Hj; apply (Hoff (S j)); lia).
    destruct on; [destruct (15 <? bit)|]; [done| |]; apply IH; done || lia.
Qed.

(** ** [main] (lines 116-164) *)

(** X3: every run ends with exit code 0 or 1, and a run that ends with 1
    leaves the file with the bytes it had. *)
Theorem main_exit_code (decompress : bytes -> nat -> option bytes)
    (compress : bytes -> bytes) (rasterize : nat -> bitmap) (argv : list string)
    (font_num font_found : bool) (raw : bytes) :
  let r := main decompress compress rasterize argv font_num font_found raw in
  fst r = 0 \/ (fst r = 1 /\ snd r = raw).
Proof.
  cbv zeta. unfold main.
  destruct argv as [|a0 [|lang [|a2 rest]]]; try (right; done).
  destruct (assoc_get lang FONT_RANGES) as [rs|]; [|left; done].
  destruct (find_font_bundle decompress raw) as [[[o t] limit]|]; [|right; done].
  destruct font_found; [|right; done].
  destruct (patch_ranges rasterize t _) as [t'|]; [|right; done].
  unfold write_back. destruct (limit <? length (compress t')); [right|left]; done.
Qed.

(** X4: a run that ends with exit code 0 either leaves the file as it was
    (unsupported language) or changes no byte outside the budget
    [offset .. offset+limit) of the located table, and keeps the length. *)
Theorem main_success_frame (decompress : bytes -> nat -> option bytes)
    (compress : bytes -> bytes) (rasterize : nat -> bitmap) (argv : list string)
    (font_num font_found : bool) (raw raw' : bytes) :
  main decompress compress rasterize argv font_num font_found raw = (0, raw') ->
  raw' = raw \/
  exists o t limit, find_font_bundle decompress raw = Some (o, t, limit) /\
    length raw' = length raw /\
    forall i, i < o \/ o + limit <= i -> raw' !! i = raw !! i.
Proof.
  unfold main. intros H.
  destruct argv as [|a0 [|lang [|a2 rest]]]; try discriminate.
  destruct (assoc_get lang FONT_RANGES) as [rs|]; [|injection H as <-; left; done].
  destruct (find_font_bundle decompress raw) as [[[o t] limit]|] eqn:Hfind; [|discriminate].
  destruct font_found; [|discriminate].
  destruct (patch_ranges rasterize t _) as [t'|]; [|discriminate].
  destruct (find_font_bundle_bounds _ _ _ _ _ Hfind) as [Ho Hlim].
  unfold write_back in H.
  destruct (limit <? length (compress t')) eqn:E; [discriminate|].
  apply Nat.ltb_ge in E. injection H as <-. right. exists o, t, limit.
  split; [done|]. split; [apply splice_length; lia|].
  intros i Hi. apply splice_lookup_out; lia.
Qed.

(** ** [find_font_bundle] (lines 70-92) *)

(** X5: a buffer with no occurrence of [MAGIC] (in particular one shorter
    than four bytes) ends in BundleNotFound without a single decompression
    attempt. *)
Theorem find_font_bundle_no_marker (decompress : bytes -> nat -> option bytes) (raw : bytes) :
  (forall i, magic_at raw i = false) ->
  find_font_bundle decompress raw = None /\ decompress_calls decompress raw = [].
Proof.
  intros H.
  assert (Hp : magic_positions raw = [])
    by (rewrite magic_positions_spec; apply filter_all_false, H).
  unfold find_font_bundle, decompress_calls. rewrite Hp. done.
Qed.

(** X6: the budget of an accepted table is at least the four bytes of its
    own marker (two occurrences of [MAGIC] never overlap) and ends within
    the buffer. *)
Theorem find_font_bundle_budget_min (decompress : bytes -> nat -> option bytes)
    (raw : bytes) o (t : bytes) b :
  find_font_bundle decompress raw = Some (o, t, b) -> 4 <= b /\ o + b <= length raw.
Proof.
  intros H. destruct (find_font_bundle_some _ _ _ _ _ H) as (Hm & _ & _ & Hb & _).
  destruct (find_font_bundle_bounds _ _ _ _ _ H) as [Ho Hlim].
  split; [|lia].
  pose proof (magic_at_lookup _ _ Hm) as Hmo.
  assert (H3 : o + 3 < length raw).
  { apply lookup_lt_is_Some_1. rewrite Hmo by lia. eexists. reflexivity. }
  subst b. unfold budget_of. destruct (List.filter _ _) as [|x rest] eqn:E; [lia|].
  assert (Hx : In x (List.filter (fun x => o <? x) (magic_positions raw)))
    by (rewrite E; left; done).
  apply filter_In in Hx as [Hx Hox]. apply Nat.ltb_lt in Hox. apply in_magic_positions in Hx.
  pose proof (magic_at_lookup _ _ Hx 0 ltac:(lia)) as Hx0. rewrite Nat.add_0_r in Hx0.
  destruct (decide (o + 4 <= x)); [lia|exfalso].
  assert (Hx3 : x = o + 1 \/ x = o + 2 \/ x = o + 3) by lia.
  destruct Hx3 as [ -> | [ -> | -> ]]; rewrite Hmo in Hx0 by lia; discriminate.
Qed.

(** ** Glyph encoding (lines 146-155) *)

(** X7: the row loop raises (a negative shift count) exactly when the row
    has a pixel on past column 15; pixels off past column 15 are ignored:
    the value is the one of the first 16 pixels. *)
Theorem row_value_extra_pixels (row : list bool) :
  (row_value row = None <-> exists j, 16 <= j /\ row !! j = Some true) /\
  ((forall j, 16 <= j -> row !! j <> Some true) -> row_value row = row_value (take 16 row)).
Proof.
  split; [apply row_value_aux_none|].
  intros Hoff. apply row_value_aux_take; [lia|]. exact Hoff.
Qed.

(** X8: for a 16x16 bitmap, writing the glyph of [cp] succeeds exactly when
    its 32-byte slot [cp*32 .. cp*32+32) lies inside the table; otherwise a
    write raises [IndexError]. *)
Theorem patch_glyph_fits (bundle : bytes) cp (bm : bitmap) :
  length bm = GLYPH_H -> Forall (fun row => length row = GLYPH_W) bm ->
  (exists t', patch_glyph bundle cp bm = Some t') <-> cp * 32 + 32 <= length bundle.
Proof.
  intros Hh Hw. split.
  - intros [t' H]. unfold patch_glyph, BYTES_PER_GLYPH, GLYPH_H, BYTES_PER_ROW in H.
    destruct (write_rows_bounds _ _ _ _ _ H) as [_ Hr].
    specialize (Hr 15 ltac:(apply in_seq; lia)). lia.
  - intros Hlen. destruct (patch_glyph_spec bundle cp bm Hlen Hh Hw) as (t' & H & _). eauto.
Qed.

(** ** The language table with the patch loop (lines 135-155) *)

(** X9: for every supported language, with or without the digits, patching
    a table of [EXPECTED_SIZE] bytes with a rasterizer that returns 16x16
    grids never raises, and keeps the table size: every range lies below
    [0xD7A4]. *)
Theorem language_patch_succeeds (rasterize : nat -> bitmap) (lang : string)
    (rs : list (nat * nat)) (font_num : bool) (t : bytes) :
  (forall cp, length (rasterize cp) = GLYPH_H /\
              Forall (fun row => length row = GLYPH_W) (rasterize cp)) ->
  assoc_get lang FONT_RANGES = Some rs -> length t = EXPECTED_SIZE ->
  exists t', patch_ranges rasterize t (if font_num then rs ++ DIGITS else rs) = Some t' /\
    length t' = EXPECTED_SIZE.
Proof.
  intros H16 Hrs Ht. destruct (font_ranges_facts _ _ Hrs) as (Hb & _ & _ & _).
  assert (Hmax : 0xD7A4 <= 0x10000) by (apply Nat.leb_le; reflexivity).
  assert (Hmax2 : 0x10000 <= 0x10FFFF) by (apply Nat.leb_le; reflexivity).
  destruct (patch_ranges_ok rasterize H16 (if font_num then rs ++ DIGITS else rs) t)
    as (t' & E & Hl).
  - intros s e cp Hin Hcp.
    assert (He : e <= 0xD7A4)
      by (apply (Hb s); destruct font_num; [done|apply in_or_app; left; done]).
    rewrite Ht. unfold EXPECTED_SIZE, BYTES_PER_GLYPH, GLYPH_H, BYTES_PER_ROW. lia.
  - exists t'. split; [done|lia].
Qed.

(** X10: without [font_num], patching any supported language leaves the
    glyphs of the digits [0x30 .. 0x39] as they were: no language range
    covers them. *)
Theorem language_keeps_digit_glyphs (rasterize : nat -> bitmap) (lang : string)
    (rs : list (nat * nat)) (t t' : bytes) :
  assoc_get lang FONT_RANGES = Some rs ->
  patch_ranges rasterize t rs = Some t' ->
  forall i, 0x30 * 32 <= i < 0x3A * 32 -> t' !! i = t !! i.
Proof.
  intros Hrs H i Hi. destruct (font_ranges_facts _ _ Hrs) as (_ & Hs & _ & _).
  rewrite patch_ranges_cps in H.
  apply (patch_cps_frame rasterize _ _ _ H i).
  intros cp Hcp. apply in_range_cps in Hcp as (s & e & Hin & Hcp).
  pose proof (Hs s e Hin). left. lia.
Qed.

(** X11: after patching a supported language, with or without the digits,
    the 32-byte slot of every code point of the selected ranges holds
    exactly the packed bitmap the rasterizer gave for it: the ranges of a
    language do not overlap, so no later code point overwrites it. *)
Theorem language_glyphs_packed (rasterize : nat -> bitmap) (lang : string)
    (rs : list (nat * nat)) (font_num : bool) (t t' p : bytes) cp :
  (forall cp, length (rasterize cp) = GLYPH_H /\
              Forall (fun row => length row = GLYPH_W) (rasterize cp)) ->
  assoc_get lang FONT_RANGES = Some rs ->
  patch_ranges rasterize t (if font_num then rs ++ DIGITS else rs) = Some t' ->
  (exists s e, In (s, e) (if font_num then rs ++ DIGITS else rs) /\ s <= cp < e) ->
  pack (rasterize cp) = Some p ->
  forall k, k < 32 -> t' !! (cp * 32 + k) = p !! k.
Proof.
  intros H16 Hrs H Hcp Hp k Hk. destruct (font_ranges_facts _ _ Hrs) as (_ & _ & Hd1 & Hd2).
  rewrite patch_ranges_cps in H.
  apply (patch_cps_glyph rasterize H16 _ t t' p cp H); [| apply in_range_cps, Hcp | done | done].
  apply ranges_disjoint_nodup. destruct font_num; done.
Qed.

(** ** Glyph placement in [rasterize_char] (lines 97-106) *)

(** X12: the origin never lies left of the cell; a glyph at most 16 pixels
    wide is centred horizontally, the right margin equal to the left one or
    one pixel wider, a wider glyph starts at column 0; vertically the line
    box of height [ascent + descent] is centred the same way, for any
    metrics. *)
Theorem text_origin_centred (w : option Z) (ascent descent : Z) :
  let w' := match w with Some w => w | None => 8%Z end in
  let '(x, top) := text_origin w ascent descent in
  (0 <= x)%Z /\
  ((w' <= 16)%Z -> (x <= 16 - w' - x <= x + 1)%Z) /\
  ((16 <= w')%Z -> x = 0%Z) /\
  (top <= 16 - (ascent + descent) - top <= top + 1)%Z.
Proof.
  assert (Hd : forall d : Z, (2 * (d / 2) <= d <= 2 * (d / 2) + 1)%Z).
  { intros d. pose proof (Z.div_mod d 2 ltac:(lia)).
    pose proof (Z.mod_pos_bound d 2 ltac:(lia)). lia. }
  unfold text_origin, GLYPH_W, GLYPH_H. cbv zeta beta iota.
  set (w' := match w with Some w => w | None => 8%Z end).
  change (Z.of_nat 16) with 16%Z.
  pose proof (Hd (16 - w')%Z). pose proof (Hd (16 - (ascent + descent))%Z).
  split; [lia|]. split; [intros; lia|]. split; [intros; lia|lia].
Qed.

Lemma decompress_calls_capped_witness :
  decompress_calls sample_decompress sample_nro2 = [(0, EXPECTED_SIZE)] /\
  decompress_calls (fun _ _ => None) (MAGIC ++ MAGIC) = [(0, EXPECTED_SIZE); (4, EXPECTED_SIZE)].
Proof.
  split.
  - destruct (proj1 (proj2 (decompress_calls_capped sample_decompress sample_nro2))
                _ _ _ sample_find) as (pre & post & Hp & _ & _ & Hc).
    assert (Hpre : pre = []).
    { clear Hc. change (magic_positions sample_nro2) with [0; 5] in Hp.
      destruct pre as [|x [|y pre]]; [reflexivity| |]; simpl in Hp;
        injection Hp; intros; [discriminate|destruct pre; discriminate]. }
    rewrite Hpre in Hc. exact Hc.
  - exact (proj2 (proj2 (decompress_calls_capped (fun _ _ => None) (MAGIC ++ MAGIC)))
             eq_refl).
Defined.

(** * Witnesses of the further properties *)

Lemma font_num_line_padding_witness :
  font_num_setting ascii_lower ([160] ++ FONT_NUM_KEY ++ [32] ++ EQ_SIGN :: [12288] ++
                                text "True" ++ [10]) = Some true.
Proof.
  rewrite (font_num_line_padding ascii_lower [160] [32] [12288] [10] (text "True"));
    reflexivity.
Defined.

Lemma row_value_extra_pixels_witness :
  row_value (repeat true 16 ++ [false; false]) = Some 65535%Z.
Proof.
  rewrite (proj2 (row_value_extra_pixels (repeat true 16 ++ [false; false]))).
  - reflexivity.
  - intros j Hj. rewrite lookup_app_r by (rewrite repeat_length; lia).
    rewrite repeat_length. destruct (j - 16) as [|[|k]]; cbn; discriminate.
Defined.

Lemma main_success_frame_witness :
  [7; 7; 0x2F; 0xFD; 1; 0x28; 0xB5; 0x2F; 0xFD; 0]%Z = sample_nro2 \/
  exists o t limit, find_font_bundle sample_decompress sample_nro2 = Some (o, t, limit) /\
    length [7; 7; 0x2F; 0xFD; 1; 0x28; 0xB5; 0x2F; 0xFD; 0]%Z = length sample_nro2 /\
    forall i, i < o \/ o + limit <= i ->
      [7; 7; 0x2F; 0xFD; 1; 0x28; 0xB5; 0x2F; 0xFD; 0]%Z !! i = sample_nro2 !! i.
Proof.
  destruct sample_patch_en as [t' Ht'].
  apply (main_success_frame sample_decompress (fun _ => [7; 7]%Z) blank_glyph
           (sample_argv "en") false true sample_nro2).
  rewrite (sample_main_en _ _ Ht'). reflexivity.
Defined.

Lemma find_font_bundle_no_marker_witness :
  find_font_bundle sample_decompress [0x28; 0xB5; 0x2F]%Z = None /\
  decompress_calls sample_decompress [0x28; 0xB5; 0x2F]%Z = [].
Proof.
  apply find_font_bundle_no_marker.
  intros [|[|[|i]]]; try reflexivity.
  unfold magic_at. cbn [drop]. rewrite drop_nil. reflexivity.
Defined.

Lemma find_font_bundle_budget_min_witness : 4 <= 5 /\ 0 + 5 <= length sample_nro2.
Proof.
  apply (find_font_bundle_budget_min sample_decompress sample_nro2 0
           (repeat 0%Z EXPECTED_SIZE) 5).
  apply sample_find.
Defined.

Lemma patch_glyph_fits_witness :
  (exists t', patch_glyph (repeat 0%Z 64) 2 (blank_glyph 0) = Some t') <->
  2 * 32 + 32 <= length (repeat 0%Z 64).
Proof.
  destruct (blank_glyph_16x16 0) as [Hh Hw].
  apply (patch_glyph_fits (repeat 0%Z 64) 2 (blank_glyph 0) Hh Hw).
Defined.

Lemma language_patch_succeeds_witness :
  exists t', patch_ranges blank_glyph (repeat 0%Z EXPECTED_SIZE)
               (if true then HANGUL_SYLLABLES ++ DIGITS else HANGUL_SYLLABLES) = Some t' /\
    length t' = EXPECTED_SIZE.
Proof.
  apply (language_patch_succeeds blank_glyph "ko" HANGUL_SYLLABLES true
           (repeat 0%Z EXPECTED_SIZE)).
  - apply blank_glyph_16x16.
  - reflexivity.
  - apply repeat_length.
Defined.

Lemma language_keeps_digit_glyphs_witness :
  exists t', patch_ranges blank_glyph (repeat 0%Z EXPECTED_SIZE) LATIN_BASIC = Some t' /\
    t' !! (0x30 * 32) = repeat 0%Z EXPECTED_SIZE !! (0x30 * 32).
Proof.
  destruct sample_patch_en as [t' Ht']. exists t'. split; [exact Ht'|].
  apply (language_keeps_digit_glyphs blank_glyph "en" LATIN_BASIC _ _ ltac:(reflexivity) Ht').
  lia.
Defined.

Lemma language_glyphs_packed_witness :
  exists t', patch_ranges blank_glyph (repeat 0%Z EXPECTED_SIZE) LATIN_BASIC = Some t' /\
    t' !! (0x41 * 32 + 5) = Some 0%Z.
Proof.
  destruct sample_patch_en as [t' Ht']. exists t'. split; [exact Ht'|].
  change (Some 0%Z) with (repeat 0%Z 32 !! 5).
  apply (language_glyphs_packed blank_glyph "en" LATIN_BASIC false
           (repeat 0%Z EXPECTED_SIZE) t' (repeat 0%Z 32) 0x41 blank_glyph_16x16).
  - reflexivity.
  - exact Ht'.
  - exists 0x41, 0x5B. split; [left; reflexivity|lia].
  - reflexivity.
  - lia.
Defined.
